(** * inject: a type-keyed value registry and a reflective function invoker

    A shallow embedding of package [inject] (functions [New], [Must] and
    [needle.Inject]) together with the part of package [reflect] that those
    functions rely on, and the properties of the registry and of the invoker
    that follow from the code. *)

From Stdlib Require Import ZArith.
From stdpp Require Import strings pretty countable list fin_maps gmap.

Local Open Scope string_scope.
Local Open Scope list_scope.

(** ** Go types as [reflect] sees them *)

(** [reflect.Kind]. *)
Inductive Kind :=
  | Invalid | Bool | Int | Int8 | Int16 | Int32 | Int64
  | Uint | Uint8 | Uint16 | Uint32 | Uint64 | Uintptr
  | Float32 | Float64 | Complex64 | Complex128
  | Array | Chan | Func | Interface | Map | Pointer | Slice
  | String | Struct | UnsafePointer.

#[global] Instance Kind_eq_dec : EqDecision Kind.
Proof. solve_decision. Defined.

(** [Kind.String]. *)
Definition Kind_String (k : Kind) : string :=
  match k with
  | Invalid => "invalid" | Bool => "bool" | Int => "int" | Int8 => "int8"
  | Int16 => "int16" | Int32 => "int32" | Int64 => "int64" | Uint => "uint"
  | Uint8 => "uint8" | Uint16 => "uint16" | Uint32 => "uint32"
  | Uint64 => "uint64" | Uintptr => "uintptr" | Float32 => "float32"
  | Float64 => "float64" | Complex64 => "complex64"
  | Complex128 => "complex128" | Array => "array" | Chan => "chan"
  | Func => "func" | Interface => "interface" | Map => "map"
  | Pointer => "ptr" | Slice => "slice" | String => "string"
  | Struct => "struct" | UnsafePointer => "unsafe.Pointer"
  end.

(** The predeclared types without component types: [bool], the numeric
    types, [string] and [unsafe.Pointer]. *)
Inductive basic :=
  | Tbool | Tint | Tint8 | Tint16 | Tint32 | Tint64
  | Tuint | Tuint8 | Tuint16 | Tuint32 | Tuint64 | Tuintptr
  | Tfloat32 | Tfloat64 | Tcomplex64 | Tcomplex128
  | Tstring | TunsafePointer.

#[global] Instance basic_eq_dec : EqDecision basic.
Proof. solve_decision. Defined.

Definition basic_Kind (b : basic) : Kind :=
  match b with
  | Tbool => Bool | Tint => Int | Tint8 => Int8 | Tint16 => Int16
  | Tint32 => Int32 | Tint64 => Int64 | Tuint => Uint | Tuint8 => Uint8
  | Tuint16 => Uint16 | Tuint32 => Uint32 | Tuint64 => Uint64
  | Tuintptr => Uintptr | Tfloat32 => Float32 | Tfloat64 => Float64
  | Tcomplex64 => Complex64 | Tcomplex128 => Complex128
  | Tstring => String | TunsafePointer => UnsafePointer
  end.

Definition basic_to_nat (b : basic) : nat :=
  match b with
  | Tbool => 0 | Tint => 1 | Tint8 => 2 | Tint16 => 3 | Tint32 => 4
  | Tint64 => 5 | Tuint => 6 | Tuint8 => 7 | Tuint16 => 8 | Tuint32 => 9
  | Tuint64 => 10 | Tuintptr => 11 | Tfloat32 => 12 | Tfloat64 => 13
  | Tcomplex64 => 14 | Tcomplex128 => 15 | Tstring => 16
  | TunsafePointer => 17
  end%nat.

Definition basic_of_nat (n : nat) : basic :=
  match n with
  | 0 => Tbool | 1 => Tint | 2 => Tint8 | 3 => Tint16 | 4 => Tint32
  | 5 => Tint64 | 6 => Tuint | 7 => Tuint8 | 8 => Tuint16 | 9 => Tuint32
  | 10 => Tuint64 | 11 => Tuintptr | 12 => Tfloat32 | 13 => Tfloat64
  | 14 => Tcomplex64 | 15 => Tcomplex128 | 16 => Tstring
  | _ => TunsafePointer
  end%nat.

Lemma basic_of_to_nat b : basic_of_nat (basic_to_nat b) = b.
Proof. by destruct b. Qed.

#[global] Instance basic_countable : Countable basic :=
  inj_countable' basic_to_nat basic_of_nat basic_of_to_nat.

(** A type descriptor ([reflect.Type], when not nil).  Two descriptors are
    the same type exactly when they are equal: a defined type [Named] is
    told apart from its underlying type and from every other defined type,
    whatever their representation.  Array, channel and map types are left
    out of this fragment. *)
#[warnings="-register-all"] Inductive rtype :=
  | Basic (b : basic)
  | Named (pkg name : string) (underlying : rtype)
  | PtrTo (elem : rtype)
  | SliceOf (elem : rtype)
  | FuncOf (ins outs : list rtype) (variadic : bool)
  | InterfaceOf (methods : list (string * rtype))
  | StructOf (fields : list (string * rtype)).

(** The induction principle that reaches the component types held in
    lists. *)
Section rtype_induction.
Variable P : rtype → Prop.
Hypothesis HBasic : ∀ b, P (Basic b).
Hypothesis HNamed : ∀ pkg name u, P u → P (Named pkg name u).
Hypothesis HPtr : ∀ e, P e → P (PtrTo e).
Hypothesis HSlice : ∀ e, P e → P (SliceOf e).
Hypothesis HFunc : ∀ ins outs v,
  Forall P ins → Forall P outs → P (FuncOf ins outs v).
Hypothesis HInterface : ∀ ms,
  Forall (λ m, P m.2) ms → P (InterfaceOf ms).
Hypothesis HStruct : ∀ fs,
  Forall (λ f, P f.2) fs → P (StructOf fs).

Fixpoint rtype_nested_ind (t : rtype) : P t :=
  let fix all (l : list rtype) : Forall P l :=
    match l with
    | [] => Forall_nil_2 P
    | x :: l' => Forall_cons_2 P x l' (rtype_nested_ind x) (all l')
    end in
  let fix allp (l : list (string * rtype)) : Forall (λ m, P m.2) l :=
    match l with
    | [] => Forall_nil_2 _
    | x :: l' =>
        Forall_cons_2 (λ m, P m.2) x l' (rtype_nested_ind x.2) (allp l')
    end in
  match t with
  | Basic b => HBasic b
  | Named pkg name u => HNamed pkg name u (rtype_nested_ind u)
  | PtrTo e => HPtr e (rtype_nested_ind e)
  | SliceOf e => HSlice e (rtype_nested_ind e)
  | FuncOf ins outs v => HFunc ins outs v (all ins) (all outs)
  | InterfaceOf ms => HInterface ms (allp ms)
  | StructOf fs => HStruct fs (allp fs)
  end.
End rtype_induction.

(** Type descriptors are countable, so they can key a [gmap]: a
    descriptor is sent to a generic tree and read back. *)
Definition rtype_leaf : Type := basic + string + bool.

Fixpoint rtype_to_tree (t : rtype) : gen_tree rtype_leaf :=
  match t with
  | Basic b => GenLeaf (inl (inl b))
  | Named pkg name u =>
      GenNode 0 [GenLeaf (inl (inr pkg)); GenLeaf (inl (inr name)); rtype_to_tree u]
  | PtrTo e => GenNode 1 [rtype_to_tree e]
  | SliceOf e => GenNode 2 [rtype_to_tree e]
  | FuncOf ins outs v =>
      GenNode 3 [GenNode 0 (map rtype_to_tree ins);
                 GenNode 0 (map rtype_to_tree outs);
                 GenLeaf (inr v)]
  | InterfaceOf ms =>
      GenNode 4 (map (λ m, GenNode 0 [GenLeaf (inl (inr m.1)); rtype_to_tree m.2]) ms)
  | StructOf fs =>
      GenNode 5 (map (λ f, GenNode 0 [GenLeaf (inl (inr f.1)); rtype_to_tree f.2]) fs)
  end.

Fixpoint rtype_of_tree (g : gen_tree rtype_leaf) : option rtype :=
  let fix many (l : list (gen_tree rtype_leaf)) : option (list rtype) :=
    match l with
    | [] => Some []
    | x :: l' =>
        match rtype_of_tree x, many l' with
        | Some t, Some ts => Some (t :: ts)
        | _, _ => None
        end
    end in
  let fix manyp (l : list (gen_tree rtype_leaf)) : option (list (string * rtype)) :=
    match l with
    | [] => Some []
    | GenNode 0 [GenLeaf (inl (inr s)); x] :: l' =>
        match rtype_of_tree x, manyp l' with
        | Some t, Some ts => Some ((s, t) :: ts)
        | _, _ => None
        end
    | _ => None
    end in
  match g with
  | GenLeaf (inl (inl b)) => Some (Basic b)
  | GenNode 0 [GenLeaf (inl (inr pkg)); GenLeaf (inl (inr name)); u] =>
      Named pkg name <$> rtype_of_tree u
  | GenNode 1 [e] => PtrTo <$> rtype_of_tree e
  | GenNode 2 [e] => SliceOf <$> rtype_of_tree e
  | GenNode 3 [GenNode 0 a; GenNode 0 b; GenLeaf (inr v)] =>
      match many a, many b with
      | Some ins, Some outs => Some (FuncOf ins outs v)
      | _, _ => None
      end
  | GenNode 4 l => InterfaceOf <$> manyp l
  | GenNode 5 l => StructOf <$> manyp l
  | _ => None
  end.

Lemma rtype_of_to_tree t : rtype_of_tree (rtype_to_tree t) = Some t.
Proof.
  induction t using rtype_nested_ind; simpl.
  - done.
  - by rewrite IHt.
  - by rewrite IHt.
  - by rewrite IHt.
  - assert (Hl : ∀ l, Forall (λ t, rtype_of_tree (rtype_to_tree t) = Some t) l →
      (fix many (l : list (gen_tree rtype_leaf)) : option (list rtype) :=
         match l with
         | [] => Some []
         | x :: l' =>
             match rtype_of_tree x, many l' with
             | Some t, Some ts => Some (t :: ts)
             | _, _ => None
             end
         end) (map rtype_to_tree l) = Some l).
    { induction 1 as [|x l Hx _ IH]; simpl; [done|]. by rewrite Hx, IH. }
    by rewrite !Hl.
  - assert (Hl : (fix manyp (l : list (gen_tree rtype_leaf)) : option (list (string * rtype)) :=
         match l with
         | [] => Some []
         | GenNode 0 [GenLeaf (inl (inr s)); x] :: l' =>
             match rtype_of_tree x, manyp l' with
             | Some t, Some ts => Some ((s, t) :: ts)
             | _, _ => None
             end
         | _ => None
         end) (map (λ m, GenNode 0 [GenLeaf (inl (inr m.1)); rtype_to_tree m.2]) ms) = Some ms).
    { induction H as [|[s x] l Hx _ IH]; simpl in *; [done|]. by rewrite Hx, IH. }
    by rewrite Hl.
  - assert (Hl : (fix manyp (l : list (gen_tree rtype_leaf)) : option (list (string * rtype)) :=
         match l with
         | [] => Some []
         | GenNode 0 [GenLeaf (inl (inr s)); x] :: l' =>
             match rtype_of_tree x, manyp l' with
             | Some t, Some ts => Some ((s, t) :: ts)
             | _, _ => None
             end
         | _ => None
         end) (map (λ m, GenNode 0 [GenLeaf (inl (inr m.1)); rtype_to_tree m.2]) fs) = Some fs).
    { induction H as [|[s x] l Hx _ IH]; simpl in *; [done|]. by rewrite Hx, IH. }
    by rewrite Hl.
Qed.

#[global] Instance rtype_to_tree_inj : Inj (=) (=) rtype_to_tree.
Proof.
  intros x y Hxy. apply (inj Some).
  by rewrite <- (rtype_of_to_tree x), Hxy, rtype_of_to_tree.
Qed.

#[global] Instance rtype_eq_dec : EqDecision rtype.
Proof.
  intros x y. destruct (decide (rtype_to_tree x = rtype_to_tree y)) as [H|H].
  - left. by apply (inj rtype_to_tree).
  - right. by intros ->.
Defined.

#[global] Instance rtype_countable : Countable rtype :=
  inj_countable rtype_to_tree rtype_of_tree rtype_of_to_tree.

(** ** Operations of [reflect.Type] *)

(** The type a defined type stands for. *)
Fixpoint underlying (t : rtype) : rtype :=
  match t with
  | Named _ _ u => underlying u
  | _ => t
  end.

(** [Type.Kind]. *)
Definition rtype_Kind (t : rtype) : Kind :=
  match underlying t with
  | Basic b => basic_Kind b
  | Named _ _ _ => Invalid
  | PtrTo _ => Pointer
  | SliceOf _ => Slice
  | FuncOf _ _ _ => Func
  | InterfaceOf _ => Interface
  | StructOf _ => Struct
  end.

(** Parameter types, result types and the variadic flag of a function
    type; [None] for the other kinds. *)
Definition funcType (t : rtype) : option (list rtype * list rtype * bool) :=
  match underlying t with
  | FuncOf ins outs variadic => Some (ins, outs, variadic)
  | _ => None
  end.

(** [Type.Elem] of a slice or pointer type. *)
Definition rtype_Elem (t : rtype) : option rtype :=
  match underlying t with
  | SliceOf e | PtrTo e => Some e
  | _ => None
  end.

(** Whether the type has a name of its own (a defined or a predeclared
    type). *)
Definition hasName (t : rtype) : bool :=
  match t with
  | Basic _ | Named _ _ _ => true
  | _ => false
  end.

Definition basic_String (b : basic) : string := Kind_String (basic_Kind b).

(** [Type.String]: the type as Go prints it, a defined type by its package
    and name. *)
Fixpoint rtype_String (t : rtype) : string :=
  let fix params (variadic : bool) (l : list rtype) : string :=
    match l with
    | [] => ""
    | x :: l' =>
        match l' with
        | [] =>
            if variadic
            then match x with
                 | SliceOf e => "..." +:+ rtype_String e
                 | _ => rtype_String x
                 end
            else rtype_String x
        | _ :: _ => rtype_String x +:+ ", " +:+ params variadic l'
        end
    end in
  let signature (ins outs : list rtype) (variadic : bool) : string :=
    "(" +:+ params variadic ins +:+ ")" +:+
    match outs with
    | [] => ""
    | [o] => " " +:+ rtype_String o
    | _ => " (" +:+ params false outs +:+ ")"
    end in
  let fix members (method : bool) (l : list (string * rtype)) : string :=
    match l with
    | [] => ""
    | (name, x) :: l' =>
        (name +:+
         match method, x with
         | true, FuncOf ins outs variadic => signature ins outs variadic
         | _, _ => " " +:+ rtype_String x
         end) +:+
        match l' with
        | [] => ""
        | _ :: _ => "; " +:+ members method l'
        end
    end in
  match t with
  | Basic b => basic_String b
  | Named pkg name _ => if String.eqb pkg "" then name else pkg +:+ "." +:+ name
  | PtrTo e => "*" +:+ rtype_String e
  | SliceOf e => "[]" +:+ rtype_String e
  | FuncOf ins outs variadic => "func" +:+ signature ins outs variadic
  | InterfaceOf [] => "interface {}"
  | InterfaceOf ms => "interface { " +:+ members true ms +:+ " }"
  | StructOf [] => "struct {}"
  | StructOf fs => "struct { " +:+ members false fs +:+ " }"
  end.

(** The predeclared type [error], which the source obtains as
    [reflect.TypeOf(&err).Elem()]. *)
Definition errorType : rtype :=
  Named "" "error" (InterfaceOf [("Error", FuncOf [] [Basic Tstring] false)]).

(** ** Values *)

(** A value of type [interface{}]: [Nil], or a dynamic type with the data
    of a value of that type.  A function value holds the address of its
    code, or nothing when it is the nil function; a pointer holds an
    address or nothing. *)
Inductive iface :=
  | Nil
  | Box (typ : rtype) (d : data)
with data :=
  | DBool (b : bool)
  | DInt (z : Z)
  | DString (s : string)
  | DPtr (addr : option nat)
  | DFunc (code : option nat)
  | DSlice (elems : list iface)
  | DStruct (fields : list iface).

(** [reflect.Type]: a type descriptor or nil. *)
Abbreviation Type_ := (option rtype).

(** [reflect.Value]: the zero Value, or a type together with what
    [Interface] gives back for it (for a Value of interface type, the
    value held in the interface). *)
Inductive Value :=
  | zeroValue
  | valueOf (typ : rtype) (x : iface).

(** [reflect.TypeOf]. *)
Definition TypeOf (i : iface) : Type_ :=
  match i with
  | Nil => None
  | Box t _ => Some t
  end.

(** [reflect.ValueOf]. *)
Definition ValueOf (i : iface) : Value :=
  match i with
  | Nil => zeroValue
  | Box t _ => valueOf t i
  end.

(** [Value.Kind]. *)
Definition Value_Kind (v : Value) : Kind :=
  match v with
  | zeroValue => Invalid
  | valueOf t _ => rtype_Kind t
  end.

(** The code address of a function value, if it has one. *)
Definition func_code (x : iface) : option nat :=
  match x with
  | Box _ (DFunc c) => c
  | _ => None
  end.

(** ** Errors *)

(** An operand of a formatting verb. *)
Inductive fmtarg :=
  | FString (s : string)
  | FValue (v : iface).

(** The errors the package builds: [fmt.Errorf] applied to a format and
    its operands, and [errors.Wrap] applied to a cause and a message. *)
Inductive error :=
  | Errorf (format : string) (a : list fmtarg)
  | Wrap (cause : iface) (message : string).

(** What unwrapping an error gives ([Unwrap] and [Cause] of the wrapper of
    [errors.Wrap]). *)
Definition cause_of (e : error) : option iface :=
  match e with
  | Wrap c _ => Some c
  | Errorf _ _ => None
  end.

(** ** The state and the monad of computations *)

(** The map type of the source: [map[reflect.Type]reflect.Value]. *)
Abbreviation needle := (gmap Type_ Value).

(** The value [New] returns as an [Injector]: the address of the map. *)
Inductive Injector :=
  | needle_ptr.

(** A use of [Value.Call]: the function Value and the argument Values. *)
Definition call : Type := Value * list Value.

(** The state: the map behind the Injector that is followed, and the uses
    of [Value.Call] so far, the latest last. *)
Record state := mkState { registry : needle; calls : list call }.

(** What stops a computation: a panic of [reflect] or of the runtime, the
    panic of [Must], or a panic of the code that was called. *)
Inductive fault :=
  | reflect_panic (msg : string)
  | Must_panic (e : error)
  | callee_panic.

Inductive outcome (A : Type) :=
  | Ok (a : A)
  | Panic (f : fault).
Arguments Ok {A} a.
Arguments Panic {A} f.

Definition M (A : Type) : Type := state → outcome A * state.

#[global] Instance M_ret : MRet M := λ A a s, (Ok a, s).
#[global] Instance M_bind : MBind M := λ A B f m s,
  match m s with
  | (Ok a, s') => f a s'
  | (Panic p, s') => (Panic p, s')
  end.

Definition panic {A} (f : fault) : M A := λ s, (Panic f, s).

(** [n := needle{}]. *)
Definition makemap : M unit :=
  λ s, (Ok (), mkState ∅ (calls s)).

(** [v, ok := n[k]]. *)
Definition mapaccess (k : Type_) : M (option Value) :=
  λ s, (Ok (registry s !! k), s).

(** [n[k] = v]. *)
Definition mapassign (k : Type_) (v : Value) : M unit :=
  λ s, (Ok (), mkState (<[k:=v]> (registry s)) (calls s)).

(** A use of [Value.Call] is recorded. *)
Definition enter (c : call) : M unit :=
  λ s, (Ok (), mkState (registry s) (calls s ++ [c])).

(** [l[i]], which panics out of range. *)
Definition index {A} (l : list A) (i : nat) : M A :=
  match l !! i with
  | Some x => mret x
  | None => panic (reflect_panic "runtime error: index out of range")
  end.

(** ** Operations of [reflect] that may panic *)

(** [Value.Interface]. *)
Definition Value_Interface (v : Value) : M iface :=
  match v with
  | zeroValue => panic (reflect_panic "reflect: call of reflect.Value.Interface on zero Value")
  | valueOf _ x => mret x
  end.

Definition the_func (method : string) (t : Type_) : M (list rtype * list rtype * bool) :=
  match t with
  | None => panic (reflect_panic "runtime error: invalid memory address or nil pointer dereference")
  | Some t =>
      match funcType t with
      | Some sig => mret sig
      | None => panic (reflect_panic ("reflect: " +:+ method +:+ " of non-func type " +:+ rtype_String t))
      end
  end.

(** [Type.NumIn], [Type.In], [Type.NumOut], [Type.Out]. *)
Definition Type_NumIn (t : Type_) : M nat :=
  sig ← the_func "NumIn" t; mret (length sig.1.1).

Definition Type_In (t : Type_) (i : nat) : M rtype :=
  sig ← the_func "In" t; index sig.1.1 i.

Definition Type_NumOut (t : Type_) : M nat :=
  sig ← the_func "NumOut" t; mret (length sig.1.2).

Definition Type_Out (t : Type_) (i : nat) : M rtype :=
  sig ← the_func "Out" t; index sig.1.2 i.

(** ** The program *)

Section program.

(** The code of the functions of the program: what the code at an address
    returns for given arguments, or nothing when it panics. *)
Variable text : nat → list iface → option (list iface).

(** Whether the method set of a type has every method of a non-empty
    interface type. *)
Variable has_methods : rtype → rtype → bool.

(** [Type.AssignableTo]: [V.AssignableTo(T)].  The types are identical; or
    not both named, of one kind and with identical underlying types; or [T]
    is an interface that [V] implements. *)
Definition implements (T V : rtype) : bool :=
  match underlying T with
  | InterfaceOf [] => true
  | InterfaceOf (_ :: _) => has_methods V T
  | _ => false
  end.

Definition AssignableTo (V T : rtype) : bool :=
  bool_decide (T = V)
  || (negb (hasName T && hasName V)
      && bool_decide (rtype_Kind T = rtype_Kind V)
      && bool_decide (underlying T = underlying V))
  || implements T V.

(** A Value that is not the zero Value, as its type and its content. *)
Definition Value_view (v : Value) : option (rtype * iface) :=
  match v with
  | zeroValue => None
  | valueOf t x => Some (t, x)
  end.

(** The slice [Call] makes of the trailing arguments of a variadic
    function. *)
Definition pack (slice : option rtype) (rest : list (rtype * iface)) : M iface :=
  match slice ≫= (λ t, pair t <$> rtype_Elem t) with
  | None => panic (reflect_panic "reflect: Elem of invalid type")
  | Some (t, elem) =>
      match List.find (λ xt, negb (AssignableTo xt elem)) rest.*1 with
      | Some xt =>
          panic (reflect_panic ("reflect: cannot use " +:+ rtype_String xt +:+
                                " as type " +:+ rtype_String elem +:+ " in Call"))
      | None => mret (Box t (DSlice rest.*2))
      end
  end.

(** [Value.Call].  It panics on a Value that is not a function, on the nil
    function, on too few or too many arguments, on a zero Value argument
    and on an argument that is not assignable to its parameter.  For a
    variadic function it makes the slice of the trailing arguments
    itself.  The result Values have the result types of the function. *)
Definition Call (v : Value) (in_ : list Value) : M (list Value) :=
  enter (v, in_);;
  match v with
  | zeroValue =>
      panic (reflect_panic "reflect: call of reflect.Value.Call on zero Value")
  | valueOf t x =>
      match funcType t with
      | None =>
          panic (reflect_panic ("reflect: call of reflect.Value.Call on " +:+
                                Kind_String (rtype_Kind t) +:+ " Value"))
      | Some (pins, pouts, variadic) =>
          match func_code x with
          | None => panic (reflect_panic "reflect.Value.Call: call of nil function")
          | Some entry =>
              let n := if variadic then length pins - 1 else length pins in
              if decide (length in_ < n)
              then panic (reflect_panic "reflect: Call with too few input arguments")
              else if decide (variadic = false ∧ n < length in_)
              then panic (reflect_panic "reflect: Call with too many input arguments")
              else
                match (mapM Value_view in_ : option (list (rtype * iface))) with
                | None => panic (reflect_panic "reflect: Call using zero Value argument")
                | Some tin =>
                    match List.find (λ p, negb (AssignableTo p.1.1 p.2))
                                    (zip (take n tin) pins) with
                    | Some (xt, _, targ) =>
                        panic (reflect_panic ("reflect: Call using " +:+ rtype_String xt +:+
                                              " as type " +:+ rtype_String targ))
                    | None =>
                        args ← (if variadic
                                then s ← pack (pins !! n) (drop n tin);
                                     mret ((take n tin).*2 ++ [s])
                                else mret tin.*2 : M (list iface));
                        match text entry args with
                        | None => panic callee_panic
                        | Some rs => mret (zip_with valueOf pouts rs)
                        end
                    end
                end
          end
      end
  end.

(** [New]: the loop over the arguments. *)
Fixpoint New_loop (args : list iface) : M (option error) :=
  match args with
  | [] => mret None
  | v :: args' =>
      let typ := TypeOf v in
      let val := ValueOf v in
      old ← mapaccess typ;
      match old with
      | Some old =>
          oi ← Value_Interface old;
          vi ← Value_Interface val;
          mret (Some (Errorf "cannot inject two values of the same type. first: %#v (%T), second: %#v (%T)"
                             [FValue oi; FValue oi; FValue vi; FValue vi]))
      | None =>
          mapassign typ val;;
          New_loop args'
      end
  end.

(** [New]. *)
Definition New (args : list iface) : M (option Injector * option error) :=
  makemap;;
  e ← New_loop args;
  match e with
  | Some e => mret (None, Some e)
  | None => mret (Some needle_ptr, None)
  end.

(** [Must]. *)
Definition Must (i : iface) (err : option error) : M iface :=
  match err with
  | Some e => panic (Must_panic e)
  | None => mret i
  end.

(** [Inject]: the loop that builds the arguments, [i] running over the
    indices of [args]. *)
Fixpoint Inject_loop (fn : iface) (typ : Type_) (i count : nat) (args : list Value)
  : M (list Value + error) :=
  match count with
  | 0 => mret (inl args)
  | S count' =>
      t ← Type_In typ i;
      arg ← mapaccess (Some t);
      match arg with
      | None =>
          t' ← Type_In typ i;
          mret (inr (Errorf "fn requires a type that's missing: %s. %#v"
                            [FString (rtype_String t'); FValue fn]))
      | Some arg => Inject_loop fn typ (S i) count' (<[i:=arg]> args)
      end
  end.

(** [needle.Inject]. *)
Definition Inject (fn : iface) : M (iface * option error) :=
  let typ := TypeOf fn in
  let val := ValueOf fn in
  (* check the function for compatibility *)
  if decide (Value_Kind val ≠ Func)
  then mret (Nil, Some (Errorf "arg is a %s, not a Func: %v"
                               [FString (Kind_String (Value_Kind val)); FValue fn]))
  else
  n1 ← Type_NumOut typ;
  if decide (2 < n1)
  then mret (Nil, Some (Errorf "cannot inject function with more than 2 return values: %#v"
                               [FValue fn]))
  else
  n2 ← Type_NumOut typ;
  c ← (if decide (n2 = 2)
       then o ← Type_Out typ 1; mret (bool_decide (o ≠ errorType))
       else mret false);
  if c : bool
  then o ← Type_Out typ 1;
       mret (Nil, Some (Errorf "cannot inject function with a non-error second return value: %s. %#v"
                               [FString (rtype_String o); FValue fn]))
  else
  n3 ← Type_NumOut typ;
  if decide (n3 < 1)
  then mret (Nil, Some (Errorf "cannot inject function with no return values: %#v"
                               [FValue fn]))
  else
  (* build the arguments *)
  nin ← Type_NumIn typ;
  r ← Inject_loop fn typ 0 nin (replicate nin zeroValue);
  match r with
  | inr e => mret (Nil, Some e)
  | inl args =>
      (* call the function *)
      results ← Call val args;
      (* extract the optional error *)
      err ← (if decide (length results = 2)
             then r1 ← index results 1;
                  i ← Value_Interface r1;
                  match i with
                  | Nil => mret None
                  | Box _ _ => mret (Some (Wrap i "cannot inject"))
                  end
             else mret None);
      r0 ← index results 0;
      i0 ← Value_Interface r0;
      mret (i0, err)
  end.

End program.

(** ** The vocabulary of the specification *)

(** The failures the specification names. *)
Inductive failure :=
  | DuplicateTypeError (old new : iface)
  | NotCallableError (k : Kind)
  | NoReturnValueError
  | TooManyReturnValuesError
  | InvalidSecondReturnError (t : rtype)
  | MissingDependencyError (t : rtype).

(** The error value the code builds for each failure; [fn] is the argument
    of [Inject]. *)
Definition error_of (f : failure) (fn : iface) : error :=
  match f with
  | DuplicateTypeError old new =>
      Errorf "cannot inject two values of the same type. first: %#v (%T), second: %#v (%T)"
             [FValue old; FValue old; FValue new; FValue new]
  | NotCallableError k =>
      Errorf "arg is a %s, not a Func: %v" [FString (Kind_String k); FValue fn]
  | NoReturnValueError =>
      Errorf "cannot inject function with no return values: %#v" [FValue fn]
  | TooManyReturnValuesError =>
      Errorf "cannot inject function with more than 2 return values: %#v" [FValue fn]
  | InvalidSecondReturnError t =>
      Errorf "cannot inject function with a non-error second return value: %s. %#v"
             [FString (rtype_String t); FValue fn]
  | MissingDependencyError t =>
      Errorf "fn requires a type that's missing: %s. %#v"
             [FString (rtype_String t); FValue fn]
  end.

(** Validation as the specification orders it: the argument is a callable;
    its return arity is 1 or 2; with arity 2 the second return type is
    [error].  The result is the first failure, if any. *)
Definition validate (fn : iface) : option failure :=
  match fn with
  | Nil => Some (NotCallableError Invalid)
  | Box t _ =>
      match funcType t with
      | None => Some (NotCallableError (rtype_Kind t))
      | Some (_, outs, _) =>
          match outs with
          | [] => Some NoReturnValueError
          | [_] => None
          | [_; o] => if decide (o = errorType) then None
                      else Some (InvalidSecondReturnError o)
          | _ => Some TooManyReturnValuesError
          end
      end
  end.

(** Result normalization as the specification words it: with one return
    value, that value and no error; with two, the first value and, when
    the second is not nil, the second wrapped as "cannot inject". *)
Definition normalize (rs : list iface) : iface * option error :=
  match rs with
  | [r] => (r, None)
  | [r; Nil] => (r, None)
  | [r; Box t d] => (r, Some (Wrap (Box t d) "cannot inject"))
  | _ => (Nil, None)
  end.

(** The resolved argument list: the Value the map holds for every
    parameter type, in the order of the parameters, when it holds one for
    each. *)
Definition resolve (n : needle) (ins : list rtype) : option (list Value) :=
  mapM (λ T, n !! Some T) ins.

(** What a list of Values holds. *)
Definition contents (vs : list Value) : list iface :=
  (λ v, match v with zeroValue => Nil | valueOf _ x => x end) <$> vs.

(** The value of type [T] among [vs], [Nil] when there is none. *)
Definition registered (vs : list iface) (T : rtype) : iface :=
  default Nil (List.find (λ v, bool_decide (TypeOf v = Some T)) vs).

(** The map that holds every value of [vs] under its type. *)
Definition registry_of (vs : list iface) : needle :=
  list_to_map ((λ v, (TypeOf v, ValueOf v)) <$> vs).

(** Every entry of the map is the Value of some value, under the type of
    that value. *)
Definition registry_ok (n : needle) : Prop :=
  ∀ k v, n !! k = Some v → ∃ x, k = TypeOf x ∧ v = ValueOf x.

(** The state after one more use of [Value.Call]. *)
Definition logged (s : state) (c : call) : state :=
  mkState (registry s) (calls s ++ [c]).

(** A computation is [reading] when it is a function of the map: for each
    map there is one outcome and one list of uses of [Call] such that, from
    every state with that map, the computation has that outcome, leaves
    the map as it is and adds that list to the record. *)
Definition reading {A} (m : M A) : Prop :=
  ∀ n, ∃ (o : outcome A) (l : list call),
    ∀ s, registry s = n → m s = (o, mkState n (calls s ++ l)).

(** A computation is [quiet] when it leaves the whole state as it is. *)
Definition quiet {A} (m : M A) : Prop := ∀ s, (m s).2 = s.

(** [Type.IsVariadic] of the type of a value; false for a value that is
    not a function. *)
Definition IsVariadic (fn : iface) : bool :=
  match TypeOf fn ≫= funcType with
  | Some (_, _, variadic) => variadic
  | None => false
  end.

(** Result normalization for a function: on a map that [New] has filled
    with [vs], whenever [fn] passes validation, its arguments all resolve
    and its code returns [rs] for what the resolved arguments hold,
    [Inject] uses [Call] once and returns [rs] normalized; an error it
    returns unwraps to the second value the code returned. *)
Definition returns_normalized
    (text : nat → list iface → option (list iface))
    (has_methods : rtype → rtype → bool)
    (vs : list iface) (fn : iface) : Prop :=
  ∀ s0 inj s ft ins outs variadic entry args rs,
    New vs s0 = (Ok (Some inj, None), s) →
    TypeOf fn = Some ft → funcType ft = Some (ins, outs, variadic) →
    func_code fn = Some entry → validate fn = None →
    resolve (registry s) ins = Some args →
    text entry (contents args) = Some rs → length rs = length outs →
    Inject text has_methods fn s = (Ok (normalize rs), logged s (ValueOf fn, args)) ∧
    ∀ e, (normalize rs).2 = Some e → cause_of e = rs !! 1.

(** ** An example program

    The values and functions of the scenarios of the specification, and a
    few more. *)
Module Example.

(** [type A int], [type B int], [type MyErr struct{ msg string }] (with
    a method [Error] on [*MyErr]) and [[]int]. *)
Definition A : rtype := Named "main" "A" (Basic Tint).
Definition B : rtype := Named "main" "B" (Basic Tint).
Definition MyErr : rtype := Named "main" "MyErr" (StructOf [("msg", Basic Tstring)]).
Definition ints : rtype := SliceOf (Basic Tint).

(** Only [*MyErr] has the method of [error]. *)
Definition has_methods (V T : rtype) : bool :=
  bool_decide (V = PtrTo MyErr ∧ T = errorType).

(** The code of the functions, by address. *)
Definition text (entry : nat) (args : list iface) : option (list iface) :=
  match entry, args with
  | 0, [Box _ (DInt a); Box _ (DInt b)] =>
      Some [Box (Basic Tstring) (DString (pretty a +:+ " " +:+ pretty b))]
  | 1, [Box _ (DString s)] =>
      Some [Box (Basic Tstring) (DString ("a" +:+ s +:+ "b"))]
  | 2, [Box _ (DSlice xs)] =>
      Some [Box (Basic Tstring) (DString (pretty (length xs)))]
  | 3, [] => Some [Box (Basic Tstring) (DString "ready"); Nil]
  | 4, [] => Some [Box (Basic Tstring) (DString "");
                   Box (PtrTo MyErr) (DPtr (Some 1))]
  | 5, [Box _ (DInt i)] => Some [Box (Basic Tstring) (DString (pretty i))]
  | _, _ => None
  end.

(** [func(a A, b B) string] and [func(b B, a A) string], which print
    their arguments in the order of their parameters. *)
Definition join : iface :=
  Box (FuncOf [A; B] [Basic Tstring] false) (DFunc (Some 0)).
Definition join_swapped : iface :=
  Box (FuncOf [B; A] [Basic Tstring] false) (DFunc (Some 0)).

(** [func(s string) string], ["a" + s + "b"]. *)
Definition wrap : iface :=
  Box (FuncOf [Basic Tstring] [Basic Tstring] false) (DFunc (Some 1)).

(** [func(xs ...int) string]. *)
Definition count : iface :=
  Box (FuncOf [ints] [Basic Tstring] true) (DFunc (Some 2)).

(** [func() (string, error)], returning a nil error, and returning a
    [*MyErr]. *)
Definition ready : iface :=
  Box (FuncOf [] [Basic Tstring; errorType] false) (DFunc (Some 3)).
Definition failing : iface :=
  Box (FuncOf [] [Basic Tstring; errorType] false) (DFunc (Some 4)).

(** [func() (string, *MyErr)]. *)
Definition typed_error : iface :=
  Box (FuncOf [] [Basic Tstring; PtrTo MyErr] false) (DFunc (Some 4)).

(** [func(i int) string]. *)
Definition show : iface :=
  Box (FuncOf [Basic Tint] [Basic Tstring] false) (DFunc (Some 5)).

(** [func()] and [func() (string, *MyErr, error)]. *)
Definition no_result : iface :=
  Box (FuncOf [] [] false) (DFunc (Some 6)).
Definition three_results : iface :=
  Box (FuncOf [] [Basic Tstring; PtrTo MyErr; errorType] false) (DFunc (Some 6)).

(** A nil function value of type [func() string]. *)
Definition nil_func : iface :=
  Box (FuncOf [] [Basic Tstring] false) (DFunc None).

(** [A(0)], [B(1)], ["foo"], [[]int{7}], [1] and [2]. *)
Definition a0 : iface := Box A (DInt 0).
Definition b1 : iface := Box B (DInt 1).
Definition foo : iface := Box (Basic Tstring) (DString "foo").
Definition seven : iface := Box ints (DSlice [Box (Basic Tint) (DInt 7)]).
Definition one : iface := Box (Basic Tint) (DInt 1).
Definition two : iface := Box (Basic Tint) (DInt 2).

(** The state before anything has run. *)
Definition start : state := mkState ∅ [].

End Example.

(** ** Properties *)

(** *** Computations that only read the map *)

Lemma reading_ret {A} (a : A) : reading (mret a : M A).
Proof.
  intros n. exists (Ok a), []. intros [r c] <-. simpl. by rewrite app_nil_r.
Qed.

Lemma reading_panic {A} f : reading (panic f : M A).
Proof.
  intros n. exists (Panic f), []. intros [r c] <-. simpl.
  unfold panic. simpl. by rewrite app_nil_r.
Qed.

Lemma reading_bind {A B} (m : M A) (k : A → M B) :
  reading m → (∀ a, reading (k a)) → reading (m ≫= k).
Proof.
  intros Hm Hk n. destruct (Hm n) as ([a|f] & l1 & H1).
  - destruct (Hk a n) as (o & l2 & H2). exists o, (l1 ++ l2).
    intros s Hs. unfold mbind, M_bind. rewrite (H1 s Hs).
    rewrite (H2 (mkState n (calls s ++ l1)) eq_refl).
    simpl. by rewrite app_assoc.
  - exists (Panic f), l1. intros s Hs. unfold mbind, M_bind. by rewrite (H1 s Hs).
Qed.

Lemma reading_mapaccess k : reading (mapaccess k).
Proof.
  intros n. exists (Ok (n !! k)), []. intros [r c] <-. unfold mapaccess. simpl.
  by rewrite app_nil_r.
Qed.

Lemma reading_enter c : reading (enter c).
Proof. intros n. exists (Ok ()), [c]. by intros [r cs] <-. Qed.

Lemma reading_index {A} (l : list A) i : reading (index l i).
Proof. unfold index. destruct (l !! i); [apply reading_ret|apply reading_panic]. Qed.

Lemma reading_Value_Interface v : reading (Value_Interface v).
Proof. destruct v; [apply reading_panic|apply reading_ret]. Qed.

Lemma reading_the_func m t : reading (the_func m t).
Proof.
  unfold the_func. destruct t as [t|]; [|apply reading_panic].
  destruct (funcType t); [apply reading_ret|apply reading_panic].
Qed.

Create HintDb reading.
#[local] Hint Resolve reading_ret reading_panic reading_mapaccess reading_enter
  reading_index reading_Value_Interface reading_the_func : reading.

Ltac reading :=
  repeat first
    [ progress intros
    | apply reading_bind
    | solve [eauto with reading]
    | match goal with
      | |- reading (match ?x with _ => _ end) => destruct x
      | |- reading (if ?x then _ else _) => destruct x
      end ].

Lemma reading_accessors t i :
  reading (Type_NumIn t) ∧ reading (Type_In t i) ∧
  reading (Type_NumOut t) ∧ reading (Type_Out t i).
Proof. unfold Type_NumIn, Type_In, Type_NumOut, Type_Out. repeat split; reading. Qed.

Section properties.

Variable text : nat → list iface → option (list iface).
Variable has_methods : rtype → rtype → bool.

Lemma reading_pack slice rest : reading (pack has_methods slice rest).
Proof. unfold pack. reading. Qed.

Lemma reading_Call v in_ : reading (Call text has_methods v in_).
Proof.
  unfold Call. apply reading_bind; [apply reading_enter|intros _].
  destruct v as [|t x]; [apply reading_panic|].
  destruct (funcType t) as [[[pins pouts] variadic]|]; [|apply reading_panic].
  destruct (func_code x) as [entry|]; [|apply reading_panic].
  cbv zeta. repeat case_decide; try apply reading_panic.
  destruct (mapM _ _ : option (list (rtype * iface))) as [tin|];
    [|apply reading_panic].
  destruct (List.find _ _) as [[[xt ?] targ]|]; [apply reading_panic|].
  apply reading_bind.
  - destruct variadic; [|apply reading_ret].
    apply reading_bind; [apply reading_pack|intros; apply reading_ret].
  - intros args. destruct (text entry args); [apply reading_ret|apply reading_panic].
Qed.

Lemma reading_Inject_loop fn typ count : ∀ i args,
  reading (Inject_loop fn typ i count args).
Proof.
  induction count as [|count IH]; intros i args; simpl; [apply reading_ret|].
  destruct (reading_accessors typ i) as (_ & HIn & _ & _).
  apply reading_bind; [done|intros t].
  apply reading_bind; [apply reading_mapaccess|intros [arg|]]; [apply IH|].
  apply reading_bind; [done|intros; apply reading_ret].
Qed.

Lemma reading_Inject fn : reading (Inject text has_methods fn).
Proof.
  unfold Inject.
  destruct (reading_accessors (TypeOf fn) 1) as (HNumIn & _ & HNumOut & HOut).
  case_decide; [apply reading_ret|].
  apply reading_bind; [done|intros n1]. case_decide; [apply reading_ret|].
  apply reading_bind; [done|intros n2].
  apply reading_bind.
  { case_decide; [|apply reading_ret].
    apply reading_bind; [done|intros; apply reading_ret]. }
  intros [|].
  { apply reading_bind; [done|intros; apply reading_ret]. }
  apply reading_bind; [done|intros n3]. case_decide; [apply reading_ret|].
  apply reading_bind; [done|intros nin].
  apply reading_bind; [apply reading_Inject_loop|intros [args|e]];
    [|apply reading_ret].
  apply reading_bind; [apply reading_Call|intros results].
  apply reading_bind.
  { case_decide; [|apply reading_ret].
    apply reading_bind; [apply reading_index|intros r1].
    apply reading_bind; [apply reading_Value_Interface|intros [|]]; apply reading_ret. }
  intros err. reading.
Qed.

(** *** The map [New] builds *)

Lemma registry_of_cons v vs :
  registry_of (v :: vs) = <[TypeOf v := ValueOf v]> (registry_of vs).
Proof. done. Qed.

Lemma registry_of_lookup_None vs k :
  k ∉ TypeOf <$> vs → registry_of vs !! k = None.
Proof.
  intros Hk. apply not_elem_of_list_to_map_1.
  by rewrite <- list_fmap_compose.
Qed.

Lemma registry_of_lookup vs v :
  NoDup (TypeOf <$> vs) → v ∈ vs → registry_of vs !! TypeOf v = Some (ValueOf v).
Proof.
  intros Hnd Hv. apply elem_of_list_to_map_1.
  - by rewrite <- list_fmap_compose.
  - by apply (list_elem_of_fmap_2 (λ v, (TypeOf v, ValueOf v))).
Qed.

Lemma registry_of_Permutation vs vs' :
  NoDup (TypeOf <$> vs) → vs ≡ₚ vs' → registry_of vs = registry_of vs'.
Proof.
  intros Hnd Hp. apply list_to_map_proper.
  - by rewrite <- list_fmap_compose.
  - by apply fmap_Permutation.
Qed.

Lemma registry_of_ok vs : registry_ok (registry_of vs).
Proof.
  intros k v Hkv. apply elem_of_list_to_map_2 in Hkv.
  apply list_elem_of_fmap in Hkv as (x & [= -> ->] & _). by exists x.
Qed.

Lemma registered_elem_of vs v T :
  NoDup (TypeOf <$> vs) → v ∈ vs → TypeOf v = Some T → registered vs T = v.
Proof.
  unfold registered. induction vs as [|x vs IH]; intros Hnd Hv HT.
  - by apply elem_of_nil in Hv.
  - rewrite fmap_cons in Hnd. apply NoDup_cons in Hnd as [Hx Hnd].
    simpl. case_bool_decide as Hd.
    + apply elem_of_cons in Hv as [->|Hv]; [done|].
      destruct Hx. rewrite Hd, <- HT. by apply list_elem_of_fmap_2.
    + apply elem_of_cons in Hv as [->|Hv]; [done|]. by apply IH.
Qed.

(** With pairwise different types, none of them in the map yet, the loop
    of [New] stores the values one after the other. *)
Lemma New_loop_app l1 : ∀ l2 s,
  NoDup (TypeOf <$> l1) →
  (∀ v, v ∈ l1 → registry s !! TypeOf v = None) →
  New_loop (l1 ++ l2) s =
  New_loop l2 (mkState (registry_of l1 ∪ registry s) (calls s)).
Proof.
  induction l1 as [|v l1 IH]; intros l2 s Hnd Hfresh.
  - simpl. unfold registry_of. simpl. rewrite (left_id_L ∅ (∪)). by destruct s.
  - rewrite fmap_cons in Hnd. apply NoDup_cons in Hnd as [Hv Hnd]. simpl.
    unfold mbind, M_bind, mapaccess at 1. simpl.
    rewrite Hfresh by left. simpl. rewrite IH; [|done|].
    + simpl. do 2 f_equal. rewrite registry_of_cons, <- insert_union_l.
      symmetry. apply insert_union_r. by apply registry_of_lookup_None.
    + intros w Hw. simpl. rewrite lookup_insert_ne; [apply Hfresh; by right|].
      intros E. apply Hv. rewrite E. by apply list_elem_of_fmap_2.
Qed.

Lemma New_loop_distinct args s :
  NoDup (TypeOf <$> args) →
  (∀ v, v ∈ args → registry s !! TypeOf v = None) →
  New_loop args s = (Ok None, mkState (registry_of args ∪ registry s) (calls s)).
Proof.
  intros Hnd Hfresh. rewrite <- (app_nil_r args) at 1. by rewrite New_loop_app.
Qed.

(** [New] on values of pairwise different types. *)
Lemma New_distinct vs s :
  NoDup (TypeOf <$> vs) →
  New vs s = (Ok (Some needle_ptr, None), mkState (registry_of vs) (calls s)).
Proof.
  intros Hnd. unfold New, mbind, M_bind. simpl.
  rewrite New_loop_distinct; [|done|by intros].
  simpl. by rewrite (right_id_L ∅ (∪)).
Qed.

(** When [New] reaches a value whose type is in the map, it stops there:
    for a value with a type it reports both values, for nil it panics.
    The map holds what was stored before. *)
Lemma New_conflict p1 old p2 v rest s :
  NoDup (TypeOf <$> p1 ++ old :: p2) →
  TypeOf old = TypeOf v →
  New ((p1 ++ old :: p2) ++ v :: rest) s =
    (match v with
     | Nil => Panic (reflect_panic "reflect: call of reflect.Value.Interface on zero Value")
     | Box _ _ => Ok (None, Some (error_of (DuplicateTypeError old v) Nil))
     end, mkState (registry_of (p1 ++ old :: p2)) (calls s)).
Proof.
  intros Hnd Hty. unfold New, mbind at 1 2, M_bind at 1 2. simpl.
  rewrite New_loop_app; [|done|by intros]. simpl.
  rewrite (right_id_L ∅ (∪)).
  unfold mbind, M_bind, mapaccess. simpl.
  rewrite <- Hty, registry_of_lookup; [|done|].
  - destruct old as [|t d], v as [|t' d']; simplify_eq/=; done.
  - apply elem_of_app. right. by left.
Qed.

(** *** Steps of [Inject] *)

Lemma bind_Ok {A B} (m : M A) (k : A → M B) s a s' :
  m s = (Ok a, s') → (m ≫= k) s = k a s'.
Proof. intros E. unfold mbind, M_bind. by rewrite E. Qed.

Lemma funcType_Kind t sig : funcType t = Some sig → rtype_Kind t = Func.
Proof. unfold funcType, rtype_Kind. by destruct (underlying t). Qed.

Lemma Kind_funcType t : rtype_Kind t = Func → is_Some (funcType t).
Proof.
  unfold funcType, rtype_Kind. destruct (underlying t) as [b| | | | | |]; try done.
  by destruct b.
Qed.

Lemma NumOut_func t ins outs v s :
  funcType t = Some (ins, outs, v) → Type_NumOut (Some t) s = (Ok (length outs), s).
Proof. intros E. unfold Type_NumOut, the_func, mbind, M_bind. by rewrite E. Qed.

Lemma NumIn_func t ins outs v s :
  funcType t = Some (ins, outs, v) → Type_NumIn (Some t) s = (Ok (length ins), s).
Proof. intros E. unfold Type_NumIn, the_func, mbind, M_bind. by rewrite E. Qed.

Lemma Out_func t ins outs v i o s :
  funcType t = Some (ins, outs, v) → outs !! i = Some o →
  Type_Out (Some t) i s = (Ok o, s).
Proof.
  intros E Ho. unfold Type_Out, the_func, index, mbind, M_bind.
  rewrite E. simpl. by rewrite Ho.
Qed.

Lemma In_func t ins outs v i T s :
  funcType t = Some (ins, outs, v) → ins !! i = Some T →
  Type_In (Some t) i s = (Ok T, s).
Proof.
  intros E Ho. unfold Type_In, the_func, index, mbind, M_bind.
  rewrite E. simpl. by rewrite Ho.
Qed.

Lemma Kind_ValueOf_func t d sig :
  funcType t = Some sig → Value_Kind (ValueOf (Box t d)) = Func.
Proof. apply funcType_Kind. Qed.

Lemma ret_bind {A B} (a : A) (k : A → M B) s : (mret a ≫= k) s = k a s.
Proof. done. Qed.

Lemma bind_assoc {A B C} (m : M A) (f : A → M B) (g : B → M C) s :
  ((m ≫= f) ≫= g) s = (m ≫= λ a, f a ≫= g) s.
Proof. unfold mbind, M_bind. by destruct (m s) as [[a|p] s']. Qed.

(** One step of a computation whose first action reads the signature of
    the function type in hand. *)
Ltac step :=
  first
    [ rewrite bind_assoc
    | erewrite bind_Ok by
        (first [ by eapply NumOut_func | by eapply NumIn_func
               | by eapply Out_func | by eapply In_func ])
    | rewrite ret_bind
    | rewrite bool_decide_eq_true_2 by done
    | rewrite bool_decide_eq_false_2 by auto
    | rewrite decide_True by (auto; lia)
    | rewrite decide_False by (auto; lia)
    | progress simpl ].

(** [Inject] reports what validation finds, and does nothing else. *)
Lemma Inject_invalid fn f s :
  validate fn = Some f →
  Inject text has_methods fn s = (Ok (Nil, Some (error_of f fn)), s).
Proof.
  unfold validate, Inject. destruct fn as [|t d].
  { by intros [= <-]. }
  destruct (funcType t) as [[[ins outs] v]|] eqn:Et.
  - rewrite (Kind_ValueOf_func _ _ _ Et), decide_False by auto.
    intros Hf. simpl TypeOf.
    destruct outs as [|o0 [|o1 [|o2 outs]]]; simplify_eq.
    + repeat step. reflexivity.
    + case_decide; simplify_eq. repeat step. reflexivity.
    + repeat step. reflexivity.
  - intros [= <-]. rewrite decide_True; [done|].
    intros Hk. apply Kind_funcType in Hk as [? Hk]. simpl in *. congruence.
Qed.

(** After validation [Inject] builds the arguments, calls the function
    and extracts the error. *)
Lemma Inject_valid fn t ins outs v s :
  TypeOf fn = Some t → funcType t = Some (ins, outs, v) → validate fn = None →
  Inject text has_methods fn s =
  (r ← Inject_loop fn (Some t) 0 (length ins) (replicate (length ins) zeroValue);
   match r with
   | inr e => mret (Nil, Some e)
   | inl args =>
       results ← Call text has_methods (ValueOf fn) args;
       err ← (if decide (length results = 2)
              then r1 ← index results 1;
                   i ← Value_Interface r1;
                   match i with
                   | Nil => mret None
                   | Box _ _ => mret (Some (Wrap i "cannot inject"))
                   end
              else mret None);
       r0 ← index results 0;
       i0 ← Value_Interface r0;
       mret (i0, err)
   end) s.
Proof.
  intros Hfn Et Hv. destruct fn as [|t' d]; simplify_eq/=.
  unfold validate in Hv. rewrite Et in Hv. unfold Inject.
  rewrite (Kind_ValueOf_func _ _ _ Et), decide_False by auto. simpl TypeOf.
  destruct outs as [|o0 [|o1 [|o2 outs]]]; simplify_eq.
  - repeat step. reflexivity.
  - case_decide; simplify_eq. repeat step. reflexivity.
Qed.

Lemma bind_mapaccess {B} k (f : option Value → M B) s :
  (mapaccess k ≫= f) s = f (registry s !! k) s.
Proof. done. Qed.

(** The loop of [Inject] when every remaining parameter type is in the
    map: the arguments are the Values found, in the order of the
    parameters. *)
Lemma Inject_loop_found fn t ins outs v s count : ∀ i args vs,
  funcType t = Some (ins, outs, v) →
  i + count = length ins → length args = length ins →
  Forall2 (λ T a, registry s !! Some T = Some a) (drop i ins) vs →
  Inject_loop fn (Some t) i count args s = (Ok (inl (take i args ++ vs)), s).
Proof.
  induction count as [|count IH]; intros i args vs Et Hi Hlen Hvs.
  - rewrite drop_ge in Hvs by lia. apply Forall2_nil_inv_l in Hvs as ->.
    simpl. rewrite app_nil_r, take_ge by lia. reflexivity.
  - destruct (lookup_lt_is_Some_2 ins i) as [T HT]; [lia|].
    rewrite (drop_S _ _ _ HT) in Hvs.
    apply Forall2_cons_inv_l in Hvs as (a & vs' & Ha & Hvs & ->).
    simpl. erewrite bind_Ok by (by eapply In_func).
    rewrite bind_mapaccess, Ha.
    rewrite (IH (S i) _ vs'); [|done|lia|by rewrite length_insert|done].
    do 3 f_equal.
    rewrite (take_S_r _ _ a) by (apply list_lookup_insert_eq; lia).
    rewrite take_insert_ge by lia. by rewrite <- app_assoc.
Qed.

(** The loop of [Inject] when a parameter type is missing from the map:
    the first such type is reported. *)
Lemma Inject_loop_missing fn t ins outs v s count : ∀ i args pre T post,
  funcType t = Some (ins, outs, v) →
  i + count = length ins →
  drop i ins = pre ++ T :: post →
  Forall (λ U, is_Some (registry s !! Some U)) pre →
  registry s !! Some T = None →
  Inject_loop fn (Some t) i count args s =
    (Ok (inr (error_of (MissingDependencyError T) fn)), s).
Proof.
  induction count as [|count IH]; intros i args pre T post Et Hi Hd Hpre HT.
  - rewrite drop_ge in Hd by lia. by destruct pre.
  - destruct (lookup_lt_is_Some_2 ins i) as [U HU]; [lia|].
    rewrite (drop_S _ _ _ HU) in Hd.
    simpl. erewrite bind_Ok by (by eapply In_func).
    rewrite bind_mapaccess.
    destruct pre as [|U' pre]; simplify_eq/=.
    + rewrite HT. by erewrite bind_Ok by (by eapply In_func).
    + apply Forall_cons in Hpre as [[a Ha] Hpre]. rewrite Ha.
      eapply IH; eauto. lia.
Qed.

(** *** The call *)

Lemma typed_view ins : ∀ in_,
  Forall2 (λ T a, ∃ y, a = valueOf T y) ins in_ →
  mapM Value_view in_ = Some (zip ins (contents in_)).
Proof.
  induction ins as [|T ins IH]; intros in_ H.
  - by apply Forall2_nil_inv_l in H as ->.
  - apply Forall2_cons_inv_l in H as (a & in' & [y ->] & H & ->).
    cbn. by rewrite (IH _ H).
Qed.

Lemma AssignableTo_refl T : AssignableTo has_methods T T = true.
Proof. unfold AssignableTo. by rewrite bool_decide_eq_true_2. Qed.

Lemma find_assignable ins : ∀ (c : list iface),
  List.find (λ p, negb (AssignableTo has_methods p.1.1 p.2)) (zip (zip ins c) ins) = None.
Proof.
  induction ins as [|T ins IH]; intros [|x c]; try done.
  simpl. rewrite AssignableTo_refl. apply IH.
Qed.

Lemma registry_ok_typed n ins args :
  registry_ok n →
  Forall2 (λ T a, n !! Some T = Some a) ins args →
  Forall2 (λ T a, ∃ y, a = valueOf T y) ins args.
Proof.
  intros Hok H. eapply Forall2_impl; [exact H|]. intros T a Ha. simpl in Ha.
  destruct (Hok _ _ Ha) as ([|T' d] & ? & ->); simplify_eq/=. eauto.
Qed.

(** [Call] on a function that has code and is not variadic, with one
    argument of the type of each parameter: the code runs on what the
    arguments hold. *)
Lemma Call_plain ft x entry ins outs in_ s :
  funcType ft = Some (ins, outs, false) → func_code x = Some entry →
  Forall2 (λ T a, ∃ y, a = valueOf T y) ins in_ →
  Call text has_methods (valueOf ft x) in_ s =
    (match text entry (contents in_) with
     | Some rs => Ok (zip_with valueOf outs rs)
     | None => Panic callee_panic
     end, logged s (valueOf ft x, in_)).
Proof.
  intros Et Hc Hin. unfold Call. rewrite Et, Hc.
  pose proof (Forall2_length _ _ _ Hin) as Hlen.
  unfold mbind at 1, M_bind at 1, enter at 1. cbv zeta.
  rewrite decide_False by lia. rewrite decide_False by lia.
  rewrite (typed_view _ _ Hin).
  assert (length (zip ins (contents in_)) = length ins) as Hz.
  { rewrite length_zip_with. unfold contents. rewrite length_fmap. lia. }
  rewrite take_ge by lia. rewrite find_assignable.
  rewrite ret_bind. rewrite snd_zip.
  - by destruct (text entry (contents in_)).
  - unfold contents. rewrite length_fmap. lia.
Qed.

(** *** [Inject] on a function whose arguments all resolve *)

Lemma resolve_Forall2 n ins args :
  resolve n ins = Some args ↔ Forall2 (λ T a, n !! Some T = Some a) ins args.
Proof. apply mapM_Some. Qed.

Lemma Inject_resolved fn ft ins outs v s args :
  TypeOf fn = Some ft → funcType ft = Some (ins, outs, v) → validate fn = None →
  resolve (registry s) ins = Some args →
  Inject text has_methods fn s =
  (results ← Call text has_methods (ValueOf fn) args;
   err ← (if decide (length results = 2)
          then r1 ← index results 1;
               i ← Value_Interface r1;
               match i with
               | Nil => mret None
               | Box _ _ => mret (Some (Wrap i "cannot inject"))
               end
          else mret None);
   r0 ← index results 0;
   i0 ← Value_Interface r0;
   mret (i0, err)) s.
Proof.
  intros Hfn Et Hv Hargs. rewrite (Inject_valid _ _ _ _ _ _ Hfn Et Hv).
  erewrite bind_Ok; cycle 1.
  { eapply Inject_loop_found; [done|lia|by rewrite length_replicate|].
    rewrite drop_0. by apply resolve_Forall2. }
  reflexivity.
Qed.

(** The function has code, is not variadic, and every resolved argument
    has the type of its parameter: [Inject] calls it once, with the
    resolved arguments, and gives back what the code returns, normalized. *)
Lemma Inject_returns fn ft entry ins outs s args rs :
  TypeOf fn = Some ft → funcType ft = Some (ins, outs, false) →
  func_code fn = Some entry → validate fn = None →
  Forall2 (λ T a, ∃ y, a = valueOf T y) ins args →
  resolve (registry s) ins = Some args →
  text entry (contents args) = Some rs → length rs = length outs →
  Inject text has_methods fn s =
    (Ok (normalize rs), logged s (ValueOf fn, args)).
Proof.
  intros Hfn Et Hc Hv Hok Hargs Hrs Hlen.
  rewrite (Inject_resolved _ _ _ _ _ _ _ Hfn Et Hv Hargs).
  destruct fn as [|t d]; [done|]. injection Hfn as ->. simpl ValueOf.
  erewrite bind_Ok; cycle 1.
  { by rewrite (Call_plain _ _ _ _ _ _ _ Et Hc), Hrs. }
  unfold validate in Hv. rewrite Et in Hv.
  destruct outs as [|o0 [|o1 [|o2 outs]]]; simplify_eq.
  - destruct rs as [|r [|? ?]]; simplify_eq/=. reflexivity.
  - case_decide; simplify_eq.
    destruct rs as [|r [|e [|? ?]]]; simplify_eq/=. by destruct e.
Qed.

(** The same, when the code of the function panics. *)
Lemma Inject_callee_panics fn ft entry ins outs s args :
  TypeOf fn = Some ft → funcType ft = Some (ins, outs, false) →
  func_code fn = Some entry → validate fn = None →
  Forall2 (λ T a, ∃ y, a = valueOf T y) ins args →
  resolve (registry s) ins = Some args →
  text entry (contents args) = None →
  Inject text has_methods fn s =
    (Panic callee_panic, logged s (ValueOf fn, args)).
Proof.
  intros Hfn Et Hc Hv Hok Hargs Hrs.
  rewrite (Inject_resolved _ _ _ _ _ _ _ Hfn Et Hv Hargs).
  destruct fn as [|t d]; [done|]. injection Hfn as ->. simpl ValueOf.
  unfold mbind at 1, M_bind at 1.
  by rewrite (Call_plain _ _ _ _ _ _ _ Et Hc), Hrs.
Qed.

(** *** Computations that leave the state as it is *)

Lemma quiet_ret {A} (a : A) : quiet (mret a : M A).
Proof. by intros s. Qed.

Lemma quiet_panic {A} f : quiet (panic f : M A).
Proof. by intros s. Qed.

Lemma quiet_bind {A B} (m : M A) (k : A → M B) :
  quiet m → (∀ a, quiet (k a)) → quiet (m ≫= k).
Proof.
  intros Hm Hk s. unfold mbind, M_bind. specialize (Hm s).
  destruct (m s) as [[a|f] s1]; simpl in *; subst; [apply Hk|done].
Qed.

Lemma quiet_index {A} (l : list A) i : quiet (index l i).
Proof. unfold index. destruct (l !! i); [apply quiet_ret|apply quiet_panic]. Qed.

Lemma quiet_Value_Interface v : quiet (Value_Interface v).
Proof. destruct v; [apply quiet_panic|apply quiet_ret]. Qed.

Lemma quiet_pack slice rest : quiet (pack has_methods slice rest).
Proof.
  unfold pack. destruct (_ ≫= _) as [[t elem]|]; [|apply quiet_panic].
  destruct (List.find _ _); [apply quiet_panic|apply quiet_ret].
Qed.

(** Whatever [Call] does, it is recorded once. *)
Lemma Call_state v in_ s :
  (Call text has_methods v in_ s).2 = logged s (v, in_).
Proof.
  unfold Call. unfold mbind at 1, M_bind at 1, enter at 1.
  unfold logged.
  generalize (mkState (registry s) (calls s ++ [(v, in_)])). intros s'.
  destruct v as [|t x]; [apply quiet_panic|].
  destruct (funcType t) as [[[pins pouts] variadic]|]; [|apply quiet_panic].
  destruct (func_code x) as [entry|]; [|apply quiet_panic].
  cbv zeta. repeat case_decide; try apply quiet_panic.
  destruct (mapM _ _ : option (list (rtype * iface))) as [tin|];
    [|apply quiet_panic].
  destruct (List.find _ _) as [[[xt ?] targ]|]; [apply quiet_panic|].
  apply quiet_bind.
  - destruct variadic; [|apply quiet_ret].
    apply quiet_bind; [apply quiet_pack|intros; apply quiet_ret].
  - intros args. destruct (text entry args); [apply quiet_ret|apply quiet_panic].
Qed.

(** When the arguments of a valid function all resolve, [Inject] uses
    [Call] once, with the resolved arguments, whatever the call does. *)
Lemma Inject_resolved_state fn ft ins outs v s args :
  TypeOf fn = Some ft → funcType ft = Some (ins, outs, v) → validate fn = None →
  resolve (registry s) ins = Some args →
  (Inject text has_methods fn s).2 = logged s (ValueOf fn, args).
Proof.
  intros Hfn Et Hv Hargs.
  rewrite (Inject_resolved _ _ _ _ _ _ _ Hfn Et Hv Hargs).
  unfold mbind at 1, M_bind at 1.
  pose proof (Call_state (ValueOf fn) args s) as Hs.
  destruct (Call _ _ _ _ _) as [[results|f] s1]; simpl in Hs; subst; [|done].
  apply (quiet_bind _ _); [|intros err].
  - case_decide; [|apply quiet_ret].
    apply quiet_bind; [apply quiet_index|intros r1].
    apply quiet_bind; [apply quiet_Value_Interface|intros [|]]; apply quiet_ret.
  - apply quiet_bind; [apply quiet_index|intros r0].
    apply quiet_bind; [apply quiet_Value_Interface|intros; apply quiet_ret].
Qed.

(** *** The map after [New] *)

Lemma registry_ok_insert n x :
  registry_ok n → registry_ok (<[TypeOf x := ValueOf x]> n).
Proof.
  intros Hok k v. rewrite lookup_insert. case_decide.
  - intros [= <-]. by exists x.
  - apply Hok.
Qed.

Lemma New_loop_registry_ok args : ∀ s,
  registry_ok (registry s) → registry_ok (registry (New_loop args s).2).
Proof.
  induction args as [|v args IH]; intros s Hok; [done|].
  simpl. rewrite bind_mapaccess. destruct (registry s !! TypeOf v) as [old|].
  - destruct old, v; done.
  - unfold mbind at 1, M_bind at 1, mapassign at 1.
    apply IH. simpl. by apply registry_ok_insert.
Qed.

Lemma New_registry_ok vs s0 r s :
  New vs s0 = (r, s) → registry_ok (registry s).
Proof.
  unfold New. unfold mbind at 1, M_bind at 1, makemap at 1. intros E.
  assert (registry_ok (registry (New_loop vs (mkState ∅ (calls s0))).2)) as Hok.
  { apply New_loop_registry_ok. intros k v. simpl. by rewrite lookup_empty. }
  unfold mbind, M_bind in E.
  destruct (New_loop vs _) as [[[e|]|f] s1];
    unfold mret, M_ret in E; by simplify_eq/=.
Qed.

(** A map that is filled as [New] does resolves to arguments of the
    types asked for. *)
Lemma resolve_typed n ins args :
  registry_ok n → resolve n ins = Some args →
  Forall2 (λ T a, ∃ y, a = valueOf T y) ins args.
Proof.
  intros Hok Hargs. eapply registry_ok_typed; [done|]. by apply resolve_Forall2.
Qed.

(** With values of pairwise different types, every type of a value
    resolves to that value. *)
Lemma resolve_registry_of vs ins :
  NoDup (TypeOf <$> vs) →
  (∀ T, T ∈ ins → ∃ x, x ∈ vs ∧ TypeOf x = Some T) →
  resolve (registry_of vs) ins = Some ((λ T, ValueOf (registered vs T)) <$> ins).
Proof.
  intros Hnd Hins. apply resolve_Forall2. apply Forall2_fmap_r, Forall_Forall2_diag.
  apply Forall_forall. intros T HT. destruct (Hins T HT) as (x & Hx & HxT).
  unfold compose. rewrite (registered_elem_of _ _ _ Hnd Hx HxT), <- HxT.
  by apply registry_of_lookup.
Qed.

Lemma contents_ValueOf xs :
  Forall (λ x, x ≠ Nil) xs → contents (ValueOf <$> xs) = xs.
Proof.
  induction 1 as [|[|t d] xs Hx _ IH]; [done|done|].
  unfold contents in *. rewrite !fmap_cons. simpl. by rewrite IH.
Qed.

(** *** The claims *)

(** C1.  For values of pairwise different types [New] succeeds, and every
    registered value is resolvable on its own: on a function that passes
    validation and whose one parameter type is the type [T] of a
    registered value, [Inject] uses [Call] once, with exactly that value;
    when the function is [func(T)] and has code, the code gets exactly
    that value, and what it returns for it is what [Inject] returns,
    normalized. *)
Theorem New_distinct_resolvable vs s0 :
  NoDup (TypeOf <$> vs) →
  ∃ s, New vs s0 = (Ok (Some needle_ptr, None), s) ∧
    ∀ v T fn ft outs variadic,
      v ∈ vs → TypeOf v = Some T →
      TypeOf fn = Some ft → funcType ft = Some ([T], outs, variadic) →
      validate fn = None →
      (Inject text has_methods fn s).2 = logged s (ValueOf fn, [ValueOf v]) ∧
      ∀ entry rs,
        variadic = false → func_code fn = Some entry →
        text entry [v] = Some rs → length rs = length outs →
        (Inject text has_methods fn s).1 = Ok (normalize rs).
Proof.
  intros Hnd. eexists. split; [by apply New_distinct|].
  intros v T fn ft outs variadic Hv HT Hfn Et Hval.
  assert (resolve (registry_of vs) [T] = Some [ValueOf v]) as Hres.
  { unfold resolve. cbn. by rewrite <- HT, (registry_of_lookup _ _ Hnd Hv). }
  split; [by eapply Inject_resolved_state|].
  intros entry rs -> Hc Hrs Hlen.
  destruct v as [|T' d]; simplify_eq/=.
  erewrite Inject_returns; eauto.
Qed.

(** C3.  A function that passes validation and has a parameter type that
    is not in the map: [Inject] reports the first such type, in the order
    of the parameters, with the function; it returns the nil result and
    leaves the state as it is, so the function is not called. *)
Theorem Inject_missing_dependency fn ft ins outs variadic pre T post s :
  TypeOf fn = Some ft → funcType ft = Some (ins, outs, variadic) →
  validate fn = None →
  ins = pre ++ T :: post →
  Forall (λ U, is_Some (registry s !! Some U)) pre →
  registry s !! Some T = None →
  Inject text has_methods fn s =
    (Ok (Nil, Some (error_of (MissingDependencyError T) fn)), s).
Proof.
  intros Hfn Et Hval -> Hpre HT.
  rewrite (Inject_valid _ _ _ _ _ _ Hfn Et Hval).
  erewrite bind_Ok; cycle 1.
  { eapply Inject_loop_missing; eauto. }
  reflexivity.
Qed.

(** C5.  [Inject] validates as the specification orders it: whatever
    [validate] finds first (not a callable, with the kind of the value; no
    return value or more than two; a second return type that is not
    [error], with that type) is what [Inject] reports, with the nil
    result; the state is as before, so no argument was resolved and the
    function was not called. *)
Theorem Inject_validation fn f s :
  validate fn = Some f →
  Inject text has_methods fn s = (Ok (Nil, Some (error_of f fn)), s).
Proof. apply Inject_invalid. Qed.

(** C6.  Arguments are bound by type alone.  In whatever order the values
    were passed to [New], for a function that passes validation and whose
    parameter types are all registered, [Inject] uses [Call] once, and
    the argument at each position is the registered value of the
    parameter type at that position; a function that has code and is not
    variadic receives these values and [Inject] returns what its code
    returns for them, normalized.  So functions whose parameter lists are
    permutations of each other get argument lists permuted in the same
    way. *)
Theorem Inject_binds_by_type vs vs' s0 fn ft ins outs variadic :
  NoDup (TypeOf <$> vs) → vs' ≡ₚ vs →
  TypeOf fn = Some ft → funcType ft = Some (ins, outs, variadic) →
  validate fn = None →
  (∀ T, T ∈ ins → ∃ x, x ∈ vs ∧ TypeOf x = Some T) →
  ∃ s, New vs' s0 = (Ok (Some needle_ptr, None), s) ∧
    (Inject text has_methods fn s).2 =
      logged s (ValueOf fn, (λ T, ValueOf (registered vs T)) <$> ins) ∧
    (∀ entry rs,
       variadic = false → func_code fn = Some entry →
       text entry (registered vs <$> ins) = Some rs → length rs = length outs →
       (Inject text has_methods fn s).1 = Ok (normalize rs)) ∧
    (∀ ins', ins' ≡ₚ ins → registered vs <$> ins' ≡ₚ registered vs <$> ins).
Proof.
  intros Hnd Hp Hfn Et Hval Hins.
  assert (NoDup (TypeOf <$> vs')) as Hnd' by (by rewrite Hp).
  eexists. split; [by apply New_distinct|].
  rewrite <- (registry_of_Permutation _ _ Hnd (symmetry Hp)).
  pose proof (resolve_registry_of _ _ Hnd Hins) as Hres.
  split; [|split].
  - by eapply Inject_resolved_state.
  - intros entry rs -> Hc Hrs Hlen.
    assert (contents ((λ T, ValueOf (registered vs T)) <$> ins)
            = registered vs <$> ins) as Hcont.
    { rewrite (list_fmap_compose (registered vs) ValueOf).
      apply contents_ValueOf, Forall_fmap, Forall_forall. intros T HT.
      destruct (Hins T HT) as (x & Hx & HxT). simpl.
      rewrite (registered_elem_of _ _ _ Hnd Hx HxT). by destruct x. }
    erewrite Inject_returns; eauto.
    + eapply resolve_typed; [apply registry_of_ok|done].
    + by rewrite Hcont.
  - intros ins' Hp'. by rewrite Hp'.
Qed.

(** C8.  [Inject] never changes the map, whether it succeeds, fails or
    panics.  Hence after any call of [Inject] every call of [Inject] has
    the outcome, and uses [Call] with the arguments, that it would have
    had before. *)
Theorem Inject_leaves_registry fn s :
  registry (Inject text has_methods fn s).2 = registry s ∧
  ∀ g, (Inject text has_methods g (Inject text has_methods fn s).2).1
       = (Inject text has_methods g s).1 ∧
       ∃ l, calls (Inject text has_methods g s).2 = calls s ++ l ∧
            calls (Inject text has_methods g (Inject text has_methods fn s).2).2
            = calls (Inject text has_methods fn s).2 ++ l.
Proof.
  destruct (reading_Inject fn (registry s)) as (o & l & Hfn).
  rewrite (Hfn s eq_refl). simpl. split; [done|]. intros g.
  destruct (reading_Inject g (registry s)) as (og & lg & Hg).
  rewrite (Hg s eq_refl), (Hg (mkState (registry s) (calls s ++ l)) eq_refl).
  split; [done|]. by exists lg.
Qed.

(** C9.  The second return type is compared with the type [error]
    itself: for a function with two return types whose second is any
    other type, also one that implements [error], [Inject] reports that
    type and does not call the function. *)
Theorem Inject_second_return_exact fn ft ins o1 o2 variadic s :
  TypeOf fn = Some ft → funcType ft = Some (ins, [o1; o2], variadic) →
  o2 ≠ errorType →
  Inject text has_methods fn s =
    (Ok (Nil, Some (error_of (InvalidSecondReturnError o2) fn)), s).
Proof.
  intros Hfn Et Ho. apply Inject_invalid.
  destruct fn as [|t d]; simplify_eq/=. rewrite Et. by rewrite decide_False.
Qed.

(** C10.  [New] without values succeeds with the empty map; on any map,
    the empty one too, [Inject] on a function without parameters that
    passes validation uses [Call] once, without arguments, and returns
    what the code returns, normalized. *)
Theorem New_empty_Inject_nullary s0 :
  New [] s0 = (Ok (Some needle_ptr, None), mkState ∅ (calls s0)) ∧
  ∀ s fn ft outs entry rs,
    TypeOf fn = Some ft → funcType ft = Some ([], outs, false) →
    func_code fn = Some entry → validate fn = None →
    text entry [] = Some rs → length rs = length outs →
    Inject text has_methods fn s = (Ok (normalize rs), logged s (ValueOf fn, [])).
Proof.
  split; [done|]. intros s fn ft outs entry rs Hfn Et Hc Hval Hrs Hlen.
  eapply Inject_returns; eauto.
Qed.

(** C4, amended.  For a function that is not variadic, results are
    normalized: with one return value, that value and no error; with two,
    the first value and, when the second is not nil, the second wrapped as
    "cannot inject", which unwraps to it. *)
Theorem Inject_normalizes vs fn :
  IsVariadic fn = false → returns_normalized text has_methods vs fn.
Proof.
  intros Hvar s0 inj s ft ins outs variadic entry args rs
    HNew Hfn Et Hc Hval Hres Hrs Hlen.
  unfold IsVariadic in Hvar. rewrite Hfn in Hvar. simpl in Hvar.
  rewrite Et in Hvar. subst variadic. split.
  - eapply Inject_returns; eauto.
    eapply resolve_typed; [|done]. by eapply New_registry_ok.
  - intros e He. unfold validate in Hval. destruct fn as [|t d]; [done|].
    injection Hfn as ->. rewrite Et in Hval.
    destruct outs as [|o0 [|o1 [|o2 outs]]]; simplify_eq.
    + by destruct rs as [|r [|? ?]]; simplify_eq/=.
    + destruct rs as [|r [|[|t' d'] [|? ?]]]; by simplify_eq/=.
Qed.

(** [Must] panics exactly when it is given an error, and otherwise
    returns the value. *)
Lemma Must_spec i err s :
  Must i err s = (match err with Some e => Panic (Must_panic e) | None => Ok i end, s).
Proof. by destruct err. Qed.

End properties.

(** *** The program on its inputs *)

Section examples.
Import Example.

Lemma NoDup_types_a0_b1_foo : NoDup (TypeOf <$> [a0; b1; foo]).
Proof. by apply (bool_decide_unpack _). Qed.

Lemma NoDup_types_a0_b1 : NoDup (TypeOf <$> [a0; b1]).
Proof. by apply (bool_decide_unpack _). Qed.

(** The registry of [A(0)], [B(1)] and ["foo"]; [wrap] gets ["foo"] and
    returns ["afoob"]. *)
Lemma New_distinct_resolvable_witness :
  NoDup (TypeOf <$> [a0; b1; foo]) ∧
  ∃ s, New [a0; b1; foo] start = (Ok (Some needle_ptr, None), s) ∧
       (Inject text has_methods wrap s).2 = logged s (ValueOf wrap, [ValueOf foo]) ∧
       (Inject text has_methods wrap s).1 =
         Ok (Box (Basic Tstring) (DString "afoob"), None).
Proof.
  split; [exact NoDup_types_a0_b1_foo|].
  destruct (New_distinct_resolvable text has_methods [a0; b1; foo] start
              NoDup_types_a0_b1_foo) as (s & HNew & HInject).
  exists s. split; [exact HNew|].
  destruct (HInject foo (Basic Tstring) wrap
              (FuncOf [Basic Tstring] [Basic Tstring] false) [Basic Tstring] false)
    as [Hstate Hout]; try reflexivity.
  { do 2 right. left. }
  split; [exact Hstate|].
  apply (Hout 1 [Box (Basic Tstring) (DString "afoob")]); reflexivity.
Defined.

(** The registry of [A(0)] alone; [show] needs an [int], which is not
    [A]. *)
Lemma Inject_missing_dependency_witness :
  registry (New [a0] start).2 !! Some (Basic Tint) = None ∧
  Inject text has_methods show (New [a0] start).2 =
    (Ok (Nil, Some (error_of (MissingDependencyError (Basic Tint)) show)),
     (New [a0] start).2).
Proof.
  split; [reflexivity|].
  apply (Inject_missing_dependency text has_methods show
           (FuncOf [Basic Tint] [Basic Tstring] false)
           [Basic Tint] [Basic Tstring] false [] (Basic Tint) []);
    try reflexivity.
  constructor.
Defined.

(** A string is not a callable. *)
Lemma Inject_validation_witness :
  validate foo = Some (NotCallableError String) ∧
  Inject text has_methods foo start =
    (Ok (Nil, Some (error_of (NotCallableError String) foo)), start).
Proof.
  split; [reflexivity|].
  apply (Inject_validation text has_methods foo (NotCallableError String) start).
  reflexivity.
Defined.

(** [A(0)] and [B(1)] passed in one order, required in the other. *)
Lemma Inject_binds_by_type_witness :
  ∃ s, New [b1; a0] start = (Ok (Some needle_ptr, None), s) ∧
       (Inject text has_methods join s).2 =
         logged s (ValueOf join, [ValueOf a0; ValueOf b1]) ∧
       (Inject text has_methods join s).1 =
         Ok (Box (Basic Tstring) (DString "0 1"), None).
Proof.
  assert (∀ T, T ∈ [A; B] → ∃ x, x ∈ [a0; b1] ∧ TypeOf x = Some T) as Hins.
  { intros T HT. apply elem_of_cons in HT as [->|HT].
    - exists a0. split; [left|reflexivity].
    - apply list_elem_of_singleton in HT as ->.
      exists b1. split; [right; left|reflexivity]. }
  destruct (Inject_binds_by_type text has_methods [a0; b1] [b1; a0] start join
              (FuncOf [A; B] [Basic Tstring] false) [A; B] [Basic Tstring] false
              NoDup_types_a0_b1 (Permutation_swap a0 b1 []) eq_refl eq_refl
              eq_refl Hins)
    as (s & HNew & Hstate & Hout & _).
  exists s. split; [exact HNew|]. split; [exact Hstate|].
  apply (Hout 0 [Box (Basic Tstring) (DString "0 1")]); reflexivity.
Defined.

(** A function that returns a [*MyErr] in place of an [error]. *)
Lemma Inject_second_return_exact_witness :
  has_methods (PtrTo MyErr) errorType = true ∧ PtrTo MyErr ≠ errorType ∧
  Inject text has_methods typed_error start =
    (Ok (Nil, Some (error_of (InvalidSecondReturnError (PtrTo MyErr)) typed_error)),
     start).
Proof.
  split; [reflexivity|]. split; [discriminate|].
  apply (Inject_second_return_exact text has_methods typed_error
           (FuncOf [] [Basic Tstring; PtrTo MyErr] false)
           [] (Basic Tstring) (PtrTo MyErr) false start);
    [reflexivity|reflexivity|discriminate].
Defined.

(** The empty registry, and a function without parameters that returns
    an error. *)
Lemma New_empty_Inject_nullary_witness :
  New [] start = (Ok (Some needle_ptr, None), start) ∧
  Inject text has_methods failing start =
    (Ok (Box (Basic Tstring) (DString ""),
         Some (Wrap (Box (PtrTo MyErr) (DPtr (Some 1))) "cannot inject")),
     logged start (ValueOf failing, [])).
Proof.
  destruct (New_empty_Inject_nullary text has_methods start) as [HNew HInject].
  split; [exact HNew|].
  apply (HInject start failing (FuncOf [] [Basic Tstring; errorType] false)
           [Basic Tstring; errorType] 4
           [Box (Basic Tstring) (DString ""); Box (PtrTo MyErr) (DPtr (Some 1))]);
    reflexivity.
Defined.

(** [join] on the registry of [A(0)] and [B(1)] returns ["0 1"]. *)
Lemma Inject_normalizes_witness :
  IsVariadic join = false ∧
  Inject text has_methods join (mkState (registry_of [a0; b1]) []) =
    (Ok (Box (Basic Tstring) (DString "0 1"), None),
     logged (mkState (registry_of [a0; b1]) []) (ValueOf join, [ValueOf a0; ValueOf b1])).
Proof.
  split; [reflexivity|].
  apply (Inject_normalizes text has_methods [a0; b1] join eq_refl
           start needle_ptr (mkState (registry_of [a0; b1]) [])
           (FuncOf [A; B] [Basic Tstring] false) [A; B] [Basic Tstring] false 0
           [ValueOf a0; ValueOf b1] [Box (Basic Tstring) (DString "0 1")]);
    reflexivity.
Defined.

(** C4 as stated fails on a variadic function.  The slice type of
    [count] is registered and its code returns for the registered slice,
    yet [Call], which makes the slice of a variadic function itself, takes
    the slice for one [int] and panics. *)
Lemma returns_normalized_variadic_counterexample :
  ¬ returns_normalized text has_methods [seven] count.
Proof.
  intros H.
  destruct (H start needle_ptr (mkState (registry_of [seven]) [])
              (FuncOf [ints] [Basic Tstring] true) [ints] [Basic Tstring] true 2
              [ValueOf seven] [Box (Basic Tstring) (DString "1")])
    as [HInject _]; try reflexivity.
  vm_compute in HInject. discriminate HInject.
Qed.

(** C2: with two nils ahead of two [int]s, [New] does not report the
    duplicate: it panics in [Interface] on the zero Value it stored for
    the first nil. *)
Theorem New_nil_pair_panics_before_duplicate s :
  (New [Nil; Nil; one; two] s).1 =
    Panic (reflect_panic "reflect: call of reflect.Value.Interface on zero Value").
Proof.
  change [Nil; Nil; one; two] with (([] ++ [Nil]) ++ Nil :: [one; two]).
  rewrite New_conflict; [done| |done]. by apply (bool_decide_unpack _).
Qed.

(** C7: [New] panics on two nils; nothing is returned. *)
Theorem New_two_nils_panics s :
  New [Nil; Nil] s =
    (Panic (reflect_panic "reflect: call of reflect.Value.Interface on zero Value"),
     mkState {[None := zeroValue]} (calls s)).
Proof.
  change [Nil; Nil] with (([] ++ [Nil]) ++ Nil :: []).
  rewrite New_conflict; [done| |done]. by apply (bool_decide_unpack _).
Qed.

(** [Inject] panics in [Call] on a nil function value and on a variadic
    function whose slice type is registered. *)
Lemma Inject_nil_func_panics :
  (Inject text has_methods nil_func start).1 =
    Panic (reflect_panic "reflect.Value.Call: call of nil function").
Proof. reflexivity. Qed.

Lemma Inject_variadic_panics :
  (Inject text has_methods count (New [seven] start).2).1 =
    Panic (reflect_panic "reflect: cannot use []int as type int in Call").
Proof. by vm_compute. Qed.

(** Validation on the other shapes. *)
Example validation_no_result :
  Inject text has_methods no_result start =
    (Ok (Nil, Some (error_of NoReturnValueError no_result)), start).
Proof. reflexivity. Qed.

Example validation_three_results :
  Inject text has_methods three_results start =
    (Ok (Nil, Some (error_of TooManyReturnValuesError three_results)), start).
Proof. reflexivity. Qed.

Example validation_nil :
  Inject text has_methods Nil start =
    (Ok (Nil, Some (error_of (NotCallableError Invalid) Nil)), start).
Proof. reflexivity. Qed.

(** A nil error is not wrapped, another one is, and unwraps to the
    error the function returned. *)
Example result_nil_error :
  (Inject text has_methods ready start).1 =
    Ok (Box (Basic Tstring) (DString "ready"), None).
Proof. reflexivity. Qed.

Example result_wrapped_error :
  ∃ e, (Inject text has_methods failing start).1 =
         Ok (Box (Basic Tstring) (DString ""), Some e) ∧
       cause_of e = Some (Box (PtrTo MyErr) (DPtr (Some 1))).
Proof. by eexists. Qed.

(** The scenarios of the specification. *)
Example scenario_join :
  (Inject text has_methods join (New [a0; b1] start).2).1 =
    Ok (Box (Basic Tstring) (DString "0 1"), None).
Proof. by vm_compute. Qed.

Example scenario_wrap :
  (Inject text has_methods wrap (New [a0; b1; foo] start).2).1 =
    Ok (Box (Basic Tstring) (DString "afoob"), None).
Proof. by vm_compute. Qed.

Example scenario_missing_int :
  (Inject text has_methods show (New [a0] start).2).1 =
    Ok (Nil, Some (Errorf "fn requires a type that's missing: %s. %#v"
                          [FString "int"; FValue show])).
Proof. by vm_compute. Qed.

End examples.

(** ** Further properties of [New] *)

(** Either the types of the values are pairwise different, or there is a
    first value whose type an earlier value has. *)
Lemma first_conflict vs :
  NoDup (TypeOf <$> vs) ∨
  ∃ p1 old p2 v rest,
    vs = (p1 ++ old :: p2) ++ v :: rest ∧
    NoDup (TypeOf <$> p1 ++ old :: p2) ∧ TypeOf old = TypeOf v.
Proof.
  induction vs as [|x l IH] using rev_ind; [left; constructor|].
  destruct IH as [Hnd|(p1 & old & p2 & v & rest & -> & Hnd & Hty)].
  - destruct (decide (TypeOf x ∈ TypeOf <$> l)) as [Hin|Hnin].
    + right. apply list_elem_of_fmap in Hin as (old & Hty & Hold).
      apply list_elem_of_split in Hold as (p1 & p2 & ->).
      by exists p1, old, p2, x, [].
    + left. rewrite fmap_app. apply NoDup_app. split; [done|].
      split; [|apply NoDup_singleton].
      intros k Hk Hk'. apply list_elem_of_singleton in Hk' as ->. done.
  - right. exists p1, old, p2, v, (rest ++ [x]).
    by rewrite <- app_assoc.
Qed.

(** When [New] returns an Injector, the types are pairwise different and
    the map is the one that holds every value under its type. *)
Lemma New_success_inv vs s0 inj e s :
  New vs s0 = (Ok (Some inj, e), s) →
  NoDup (TypeOf <$> vs) ∧ e = None ∧ s = mkState (registry_of vs) (calls s0).
Proof.
  intros HNew.
  destruct (first_conflict vs)
    as [Hnd|(p1 & old & p2 & v & rest & -> & Hnd & Hty)].
  - rewrite (New_distinct _ _ Hnd) in HNew. by simplify_eq.
  - rewrite (New_conflict _ _ _ _ _ _ Hnd Hty) in HNew. by destruct v.
Qed.

(** X1.  [New] returns an Injector exactly when the types of the values
    are pairwise different (nil counting as a type of its own); the error
    is then nil. *)
Theorem New_Injector_iff_distinct vs s0 :
  (∃ e s, New vs s0 = (Ok (Some needle_ptr, e), s)) ↔ NoDup (TypeOf <$> vs).
Proof.
  split.
  - intros (e & s & HNew). by apply New_success_inv in HNew as [Hnd _].
  - intros Hnd. eexists _, _. by apply New_distinct.
Qed.

(** X2.  After [New] has returned an Injector, the map holds one entry for
    each value, and exactly the values under their types: looking up the
    type of a value gives that value, looking up any other type gives
    nothing. *)
Theorem New_registry_contents vs s0 e s :
  New vs s0 = (Ok (Some needle_ptr, e), s) →
  size (registry s) = length vs ∧
  ∀ k val, registry s !! k = Some val ↔ ∃ v, v ∈ vs ∧ k = TypeOf v ∧ val = ValueOf v.
Proof.
  intros HNew. apply New_success_inv in HNew as (Hnd & _ & ->). simpl.
  split.
  - unfold registry_of. rewrite map_size_list_to_map.
    + by rewrite length_fmap.
    + by rewrite <- list_fmap_compose.
  - intros k val. split.
    + intros Hk. apply elem_of_list_to_map_2 in Hk.
      apply list_elem_of_fmap in Hk as (v & [= -> ->] & Hv). eauto.
    + intros (v & Hv & -> & ->). by apply registry_of_lookup.
Qed.

(** X3.  When the first value whose type an earlier value has is not nil,
    [New] returns no Injector and the error built from the stored value
    and the new one; the values after it play no part, and the stored
    value is still in the map under its type. *)
Theorem New_reports_first_conflict pre old v rest T s0 :
  NoDup (TypeOf <$> pre) → old ∈ pre →
  TypeOf old = Some T → TypeOf v = Some T →
  New (pre ++ v :: rest) s0 =
    (Ok (None, Some (error_of (DuplicateTypeError old v) Nil)),
     mkState (registry_of pre) (calls s0)) ∧
  registry_of pre !! Some T = Some (ValueOf old).
Proof.
  intros Hnd Hold Ho Hv. split.
  - apply list_elem_of_split in Hold as (p1 & p2 & ->).
    rewrite (New_conflict p1 old p2 v rest s0 Hnd) by congruence.
    by destruct v.
  - rewrite <- Ho. by apply registry_of_lookup.
Qed.

(** X4.  [New] panics exactly when the first value whose type an earlier
    value has is nil, that is, when a second nil comes before any other
    repeated type. *)
Theorem New_panics_iff_nil_repeated vs s0 :
  (∃ f s, New vs s0 = (Panic f, s)) ↔
  ∃ pre rest, vs = pre ++ Nil :: rest ∧ NoDup (TypeOf <$> pre) ∧ Nil ∈ pre.
Proof.
  split.
  - intros (f & s & HNew).
    destruct (first_conflict vs)
      as [Hnd|(p1 & old & p2 & v & rest & -> & Hnd & Hty)].
    { by rewrite (New_distinct _ _ Hnd) in HNew. }
    rewrite (New_conflict _ _ _ _ _ _ Hnd Hty) in HNew.
    destruct v as [|t d]; [|done]. destruct old as [|t' d']; [|done].
    exists (p1 ++ Nil :: p2), rest. split; [done|]. split; [done|].
    apply elem_of_app. right. left.
  - intros (pre & rest & -> & Hnd & Hin).
    apply list_elem_of_split in Hin as (p1 & p2 & ->).
    eexists _, _. by apply (New_conflict p1 Nil p2 Nil rest s0 Hnd).
Qed.


(** A defined type is not its underlying type. *)
Lemma Named_neq_underlying pkg name u : Named pkg name u ≠ u.
Proof.
  induction u as [| pkg' name' u' IH | | | | |]; try discriminate.
  intros [= -> -> Hu]. by apply IH.
Qed.

(** X6.  Values of two defined types with different names and a value of
    their common underlying type do not conflict: [New] stores all three,
    each under its own type (as in [type A int; type B int;
    New(A(0), B(1), 2)]). *)
Theorem New_defined_types_beside_underlying pkg name pkg' name' u d1 d2 d3 s0 :
  (pkg, name) ≠ (pkg', name') →
  ∃ s, New [Box (Named pkg name u) d1; Box (Named pkg' name' u) d2; Box u d3] s0
         = (Ok (Some needle_ptr, None), s) ∧
       registry s !! Some (Named pkg name u) = Some (valueOf (Named pkg name u) (Box (Named pkg name u) d1)) ∧
       registry s !! Some (Named pkg' name' u) = Some (valueOf (Named pkg' name' u) (Box (Named pkg' name' u) d2)) ∧
       registry s !! Some u = Some (valueOf u (Box u d3)).
Proof.
  intros Hne.
  assert (NoDup (TypeOf <$> [Box (Named pkg name u) d1;
                             Box (Named pkg' name' u) d2; Box u d3])) as Hnd.
  { simpl. apply NoDup_cons. split.
    - intros Hin. apply elem_of_cons in Hin as [[= -> ->]|Hin]; [done|].
      apply list_elem_of_singleton in Hin. injection Hin as Hu.
      by apply Named_neq_underlying in Hu.
    - apply NoDup_cons. split; [|apply NoDup_singleton].
      intros Hin. apply list_elem_of_singleton in Hin. injection Hin as Hu.
      by apply Named_neq_underlying in Hu. }
  eexists. split; [by apply New_distinct|]. simpl.
  split; [|split].
  - apply (registry_of_lookup _ (Box (Named pkg name u) d1) Hnd). left.
  - apply (registry_of_lookup _ (Box (Named pkg' name' u) d2) Hnd). right. left.
  - apply (registry_of_lookup _ (Box u d3) Hnd). do 2 right. left.
Qed.

(** ** Further properties of [Inject] *)

(** The first parameter type, in the order of the parameters, that the
    map holds nothing for. *)
Definition first_missing (n : needle) (ins : list rtype) : option rtype :=
  List.find (λ T, match n !! Some T with Some _ => false | None => true end) ins.

(** [inject.Must(di.Inject(fn))], as the callers of the package write it. *)
Definition Must_Inject
    (text : nat → list iface → option (list iface))
    (has_methods : rtype → rtype → bool) (fn : iface) : M iface :=
  r ← Inject text has_methods fn; Must r.1 r.2.

Lemma first_missing_None n ins :
  first_missing n ins = None → ∃ args, resolve n ins = Some args.
Proof.
  unfold first_missing. induction ins as [|T ins IH]; simpl.
  - by exists [].
  - destruct (n !! Some T) as [a|] eqn:E; [|done].
    intros H. destruct (IH H) as (args & Hargs). exists (a :: args).
    simpl. by rewrite Hargs.
Qed.

Lemma first_missing_Some n ins T :
  first_missing n ins = Some T →
  ∃ pre post, ins = pre ++ T :: post ∧
    Forall (λ U, is_Some (n !! Some U)) pre ∧ n !! Some T = None.
Proof.
  unfold first_missing. induction ins as [|U ins IH]; simpl; [done|].
  destruct (n !! Some U) as [a|] eqn:E.
  - intros H. destruct (IH H) as (pre & post & -> & Hpre & HT).
    exists (U :: pre), post. split; [done|]. split; [|done].
    constructor; [by rewrite E|done].
  - intros [= ->]. by exists [], ins.
Qed.

Lemma validate_None fn :
  validate fn = None →
  ∃ ft ins outs variadic,
    TypeOf fn = Some ft ∧ funcType ft = Some (ins, outs, variadic).
Proof.
  destruct fn as [|t d]; [done|]. unfold validate.
  destruct (funcType t) as [[[ins outs] v]|] eqn:Et; [|done].
  intros _. by exists t, ins, outs, v.
Qed.

Section further.

Variable text : nat → list iface → option (list iface).
Variable has_methods : rtype → rtype → bool.

Lemma Inject_reports_missing fn ft ins outs variadic T s :
  TypeOf fn = Some ft → funcType ft = Some (ins, outs, variadic) →
  validate fn = None → first_missing (registry s) ins = Some T →
  Inject text has_methods fn s =
    (Ok (Nil, Some (error_of (MissingDependencyError T) fn)), s).
Proof.
  intros Hfn Et Hval HT.
  destruct (first_missing_Some _ _ _ HT) as (pre & post & -> & Hpre & HT').
  rewrite (Inject_valid _ _ _ _ _ _ _ _ Hfn Et Hval).
  erewrite bind_Ok; cycle 1.
  { eapply Inject_loop_missing; eauto. }
  reflexivity.
Qed.

Lemma Inject_cases fn s :
  match validate fn with
  | Some f =>
      Inject text has_methods fn s = (Ok (Nil, Some (error_of f fn)), s)
  | None =>
      ∃ ft ins outs variadic,
        TypeOf fn = Some ft ∧ funcType ft = Some (ins, outs, variadic) ∧
        match first_missing (registry s) ins with
        | Some T =>
            Inject text has_methods fn s =
              (Ok (Nil, Some (error_of (MissingDependencyError T) fn)), s)
        | None =>
            ∃ args, resolve (registry s) ins = Some args ∧
              (Inject text has_methods fn s).2 = logged s (ValueOf fn, args)
        end
  end.
Proof.
  destruct (validate fn) as [f|] eqn:Hval; [by apply Inject_invalid|].
  destruct (validate_None _ Hval) as (ft & ins & outs & v & Hfn & Et).
  exists ft, ins, outs, v. split; [done|]. split; [done|].
  destruct (first_missing (registry s) ins) as [T|] eqn:HT.
  - by eapply Inject_reports_missing.
  - destruct (first_missing_None _ _ HT) as (args & Hargs).
    exists args. split; [done|]. by eapply Inject_resolved_state.
Qed.

(** X7.  What [Inject] does is decided by validation and by the map:
    when validation fails it returns that failure; when the function is
    valid and a parameter type is missing it returns the failure for the
    first missing type; in both cases the result is nil and the state is
    untouched.  Otherwise every argument resolves and [Inject] uses
    [Call] exactly once, with the resolved arguments. *)
Theorem Inject_decided fn s :
  match validate fn with
  | Some f =>
      Inject text has_methods fn s = (Ok (Nil, Some (error_of f fn)), s)
  | None =>
      ∃ ft ins outs variadic,
        TypeOf fn = Some ft ∧ funcType ft = Some (ins, outs, variadic) ∧
        match first_missing (registry s) ins with
        | Some T =>
            Inject text has_methods fn s =
              (Ok (Nil, Some (error_of (MissingDependencyError T) fn)), s)
        | None =>
            ∃ args, resolve (registry s) ins = Some args ∧
              (Inject text has_methods fn s).2 = logged s (ValueOf fn, args)
        end
  end.
Proof. apply Inject_cases. Qed.




(** X9.  On a map that [New] has filled, for a valid function that has
    code and is not variadic, and whose code returns as many values as
    its type says, [Inject] does one of three things and never panics by
    itself: it reports the first missing type; or it calls the function
    once and returns what the code returns, normalized; or the code
    panics and that panic goes on as it is. *)
Theorem Inject_on_plain_function vs s0 inj s fn ft ins outs entry :
  New vs s0 = (Ok (Some inj, None), s) →
  TypeOf fn = Some ft → funcType ft = Some (ins, outs, false) →
  func_code fn = Some entry → validate fn = None →
  (∀ args rs, text entry args = Some rs → length rs = length outs) →
  match first_missing (registry s) ins with
  | Some T =>
      Inject text has_methods fn s =
        (Ok (Nil, Some (error_of (MissingDependencyError T) fn)), s)
  | None =>
      ∃ args, resolve (registry s) ins = Some args ∧
        Inject text has_methods fn s =
          (match text entry (contents args) with
           | Some rs => Ok (normalize rs)
           | None => Panic callee_panic
           end, logged s (ValueOf fn, args))
  end.
Proof.
  intros HNew Hfn Et Hc Hval Hlen.
  destruct (first_missing (registry s) ins) as [T|] eqn:HT.
  { by eapply Inject_reports_missing. }
  destruct (first_missing_None _ _ HT) as (args & Hargs).
  exists args. split; [done|].
  assert (Forall2 (λ T a, ∃ y, a = valueOf T y) ins args) as Hty.
  { eapply resolve_typed; [|done]. by eapply New_registry_ok. }
  destruct (text entry (contents args)) as [rs|] eqn:Hrs.
  - eapply Inject_returns; eauto.
  - eapply Inject_callee_panics; eauto.
Qed.

(** X10.  A parameter of interface type can never be injected: the values
    in an [interface{}] have dynamic types that are not interface types,
    so no such type is a key of the map, and [Inject] reports a missing
    type without calling the function. *)
Theorem Inject_interface_parameter vs s0 inj s fn ft ins outs variadic T :
  New vs s0 = (Ok (Some inj, None), s) →
  Forall (λ v, ∀ U, TypeOf v = Some U → rtype_Kind U ≠ Interface) vs →
  TypeOf fn = Some ft → funcType ft = Some (ins, outs, variadic) →
  validate fn = None →
  T ∈ ins → rtype_Kind T = Interface →
  ∃ U, U ∈ ins ∧
    Inject text has_methods fn s =
      (Ok (Nil, Some (error_of (MissingDependencyError U) fn)), s).
Proof.
  intros HNew Hvs Hfn Et Hval HT HK.
  destruct (New_success_inv _ _ _ _ _ HNew) as (Hnd & _ & Hs).
  assert (registry s = registry_of vs) as Hreg by (by rewrite Hs).
  destruct (first_missing (registry s) ins) as [U|] eqn:HU.
  - exists U. split; [|by eapply Inject_reports_missing].
    destruct (first_missing_Some _ _ _ HU) as (pre & post & -> & _).
    apply elem_of_app. right. left.
  - destruct (first_missing_None _ _ HU) as (args & Hargs).
    apply resolve_Forall2 in Hargs.
    apply list_elem_of_lookup in HT as [i Hi].
    destruct (Forall2_lookup_l _ _ _ _ _ Hargs Hi) as (a & _ & Ha).
    rewrite Hreg in Ha.
    apply elem_of_list_to_map_2, list_elem_of_fmap in Ha as (v & [= HTv _] & Hv).
    rewrite Forall_forall in Hvs. by destruct (Hvs v Hv T).
Qed.

(** X11.  When [inject.Must(di.Inject(fn))] returns, the function passed
    validation, every parameter type was in the map, [Call] was used
    exactly once, with the resolved arguments, and the function reported
    no error; the value is the one [Inject] returned. *)
Theorem Must_Inject_returns fn s r s' :
  Must_Inject text has_methods fn s = (Ok r, s') →
  validate fn = None ∧
  Inject text has_methods fn s = (Ok (r, None), s') ∧
  ∃ ft ins outs variadic args,
    TypeOf fn = Some ft ∧ funcType ft = Some (ins, outs, variadic) ∧
    resolve (registry s) ins = Some args ∧
    s' = logged s (ValueOf fn, args).
Proof.
  unfold Must_Inject, mbind, M_bind, Must, mret, M_ret, panic. intros H.
  destruct (Inject text has_methods fn s) as [[[r' [e|]]|f] s1] eqn:HI;
    simplify_eq/=.
  pose proof (Inject_cases fn s) as Hd.
  destruct (validate fn) as [f|] eqn:Hval; [by rewrite Hd in HI|].
  split; [done|]. split; [done|].
  destruct Hd as (ft & ins & outs & v & Hfn & Et & Hd).
  exists ft, ins, outs, v.
  destruct (first_missing (registry s) ins) as [T|]; [by rewrite Hd in HI|].
  destruct Hd as (args & Hargs & Hs). exists args.
  rewrite HI in Hs. done.
Qed.

(** X12.  When the mechanism of [Inject] fails, [inject.Must(di.Inject(fn))]
    panics with exactly that failure and nothing is called: so for a
    failure of validation, and so for the first missing parameter type of
    a valid function. *)
Theorem Must_Inject_panics fn s :
  (∀ f, validate fn = Some f →
     Must_Inject text has_methods fn s = (Panic (Must_panic (error_of f fn)), s)) ∧
  (∀ ft ins outs variadic T,
     validate fn = None →
     TypeOf fn = Some ft → funcType ft = Some (ins, outs, variadic) →
     first_missing (registry s) ins = Some T →
     Must_Inject text has_methods fn s =
       (Panic (Must_panic (error_of (MissingDependencyError T) fn)), s)).
Proof.
  split.
  - intros f Hval. unfold Must_Inject, mbind, M_bind.
    by rewrite (Inject_invalid _ _ _ _ _ Hval).
  - intros ft ins outs v T Hval Hfn Et HT. unfold Must_Inject, mbind, M_bind.
    by rewrite (Inject_reports_missing _ _ _ _ _ _ _ Hfn Et Hval HT).
Qed.

(** What [Inject] makes of the results of [Call], when there are as many
    as the valid function type says: the normalized values. *)
Lemma extract_normalizes fn ft ins outs variadic rs s1 :
  TypeOf fn = Some ft → funcType ft = Some (ins, outs, variadic) →
  validate fn = None → length rs = length outs →
  (err ← (if decide (length (zip_with valueOf outs rs) = 2)
          then r1 ← index (zip_with valueOf outs rs) 1;
               i ← Value_Interface r1;
               match i with
               | Nil => mret None
               | Box _ _ => mret (Some (Wrap i "cannot inject"))
               end
          else mret None);
   r0 ← index (zip_with valueOf outs rs) 0;
   i0 ← Value_Interface r0;
   mret (i0, err)) s1 = (Ok (normalize rs), s1).
Proof.
  intros Hfn Et Hval Hlen. destruct fn as [|t d]; [done|]. injection Hfn as ->.
  unfold validate in Hval. rewrite Et in Hval.
  destruct outs as [|o0 [|o1 [|o2 outs]]]; simplify_eq.
  - by destruct rs as [|r [|? ?]]; simplify_eq/=.
  - case_decide; simplify_eq.
    destruct rs as [|r [|e [|? ?]]]; simplify_eq/=. by destruct e.
Qed.

(** X17.  A valid function without code (a nil function value) whose
    arguments all resolve: [Inject] uses [Call], which panics. *)
Theorem Inject_nil_function fn ft ins outs variadic args s :
  TypeOf fn = Some ft → funcType ft = Some (ins, outs, variadic) →
  validate fn = None → func_code fn = None →
  resolve (registry s) ins = Some args →
  Inject text has_methods fn s =
    (Panic (reflect_panic "reflect.Value.Call: call of nil function"),
     logged s (ValueOf fn, args)).
Proof.
  intros Hfn Et Hval Hc Hargs.
  rewrite (Inject_resolved _ _ _ _ _ _ _ _ _ Hfn Et Hval Hargs).
  destruct fn as [|t d]; [done|]. injection Hfn as ->. simpl ValueOf.
  unfold mbind at 1, M_bind at 1, Call.
  unfold mbind at 1, M_bind at 1, enter at 1. by rewrite Et, Hc.
Qed.

(** X18.  A valid variadic function with the one parameter [...E], when
    the map holds a value [y] of the slice type [[]E]: [Call] takes [y]
    for one element.  When [[]E] is not assignable to [E], [Inject]
    panics; when it is (as for [...interface{}]), the code does not get
    [y] but a new slice whose one element is [y]. *)
Theorem Inject_variadic_single fn ft S E outs entry y s :
  TypeOf fn = Some ft → funcType ft = Some ([S], outs, true) →
  rtype_Elem S = Some E →
  func_code fn = Some entry → validate fn = None →
  (∀ args rs, text entry args = Some rs → length rs = length outs) →
  registry s !! Some S = Some (valueOf S y) →
  Inject text has_methods fn s =
    (if AssignableTo has_methods S E
     then match text entry [Box S (DSlice [y])] with
          | Some rs => Ok (normalize rs)
          | None => Panic callee_panic
          end
     else Panic (reflect_panic ("reflect: cannot use " +:+ rtype_String S +:+
                                " as type " +:+ rtype_String E +:+ " in Call")),
     logged s (ValueOf fn, [valueOf S y])).
Proof.
  intros Hfn Et HE Hc Hval Hlen Hy.
  assert (resolve (registry s) [S] = Some [valueOf S y]) as Hargs.
  { unfold resolve. cbn. by rewrite Hy. }
  rewrite (Inject_resolved _ _ _ _ _ _ _ _ _ Hfn Et Hval Hargs).
  assert (Call text has_methods (ValueOf fn) [valueOf S y] s =
          (if AssignableTo has_methods S E
           then match text entry [Box S (DSlice [y])] with
                | Some rs => Ok (zip_with valueOf outs rs)
                | None => Panic callee_panic
                end
           else Panic (reflect_panic ("reflect: cannot use " +:+ rtype_String S +:+
                                      " as type " +:+ rtype_String E +:+ " in Call")),
           logged s (ValueOf fn, [valueOf S y]))) as HCall.
  { destruct fn as [|t d]; [done|]. injection Hfn as ->. simpl ValueOf.
    unfold Call. unfold mbind at 1, M_bind at 1, enter at 1.
    rewrite Et, Hc. cbn -[AssignableTo]. unfold pack. cbn -[AssignableTo].
    rewrite HE. cbn -[AssignableTo].
    rewrite decide_False by lia. rewrite decide_False by (by intros [? _]).
    unfold mbind, M_bind, mret, M_ret, panic, logged.
    destruct (AssignableTo has_methods S E); simpl; [|done].
    by destruct (text entry _). }
  unfold mbind at 1, M_bind at 1. rewrite HCall.
  destruct (AssignableTo has_methods S E); [|done].
  destruct (text entry [Box S (DSlice [y])]) as [rs|] eqn:Hrs; [|done].
  eapply extract_normalizes; eauto.
Qed.

End further.

(** ** The callers of the package: the example server *)

(** [di.Inject(fn)] on the interface value that [New] returned: a method
    call on the nil interface panics. *)
Definition Injector_Inject
    (text : nat → list iface → option (list iface))
    (has_methods : rtype → rtype → bool)
    (di : option Injector) (fn : iface) : M (iface * option error) :=
  match di with
  | None =>
      panic (reflect_panic "runtime error: invalid memory address or nil pointer dereference")
  | Some needle_ptr => Inject text has_methods fn
  end.

(** The type assertion [i.(T)] for a type [T] that is not an interface
    type: it panics unless the dynamic type of [i] is [T]. *)
Definition assert_type (T : rtype) (i : iface) : M iface :=
  match i with
  | Nil =>
      panic (reflect_panic ("interface conversion: interface is nil, not " +:+ rtype_String T))
  | Box t _ =>
      if decide (t = T) then mret i
      else panic (reflect_panic ("interface conversion: interface {} is " +:+
                                 rtype_String t +:+ ", not " +:+ rtype_String T))
  end.

Section callers.

Variable text : nat → list iface → option (list iface).
Variable has_methods : rtype → rtype → bool.

(** The types of the standard library that the example uses; what they
    are made of is left open. *)
Variables DB_struct Template_struct Logger_struct : rtype.
Variables ResponseWriter Request Handler : rtype.

Definition DB : rtype := Named "sql" "DB" DB_struct.
Definition Template : rtype := Named "template" "Template" Template_struct.
Definition Logger : rtype := Named "log" "Logger" Logger_struct.

(** [http.HandlerFunc] and [type middleware func(http.Handler) http.Handler]. *)
Definition HandlerFunc : rtype :=
  Named "http" "HandlerFunc" (FuncOf [ResponseWriter; PtrTo Request] [] false).
Definition middleware : rtype :=
  Named "main" "middleware" (FuncOf [Handler] [Handler] false).

(** The addresses of the code of [home] and of [logMiddleware]. *)
Variables home_code logMiddleware_code : nat.

(** [func home(t *template.Template, db *sql.DB) http.HandlerFunc] and
    [func logMiddleware(lg *log.Logger) middleware]. *)
Definition home : iface :=
  Box (FuncOf [PtrTo Template; PtrTo DB] [HandlerFunc] false) (DFunc (Some home_code)).
Definition logMiddleware : iface :=
  Box (FuncOf [PtrTo Logger] [middleware] false) (DFunc (Some logMiddleware_code)).

(** [parse] of the example: [panic(e)] when the error is not nil, as
    [Must] does, and otherwise the assertion [i.(http.HandlerFunc)]. *)
Definition parse (i : iface) (e : option error) : M iface :=
  match e with
  | Some e => panic (Must_panic e)
  | None => assert_type HandlerFunc i
  end.

(** [deps], given the pointers that [sql.Open], [template.Must] and
    [log.New] returned: it calls [New] and drops the error. *)
Definition deps (db tmpl lg : data) : M (option Injector) :=
  r ← New [Box (PtrTo DB) db; Box (PtrTo Template) tmpl; Box (PtrTo Logger) lg];
  mret r.1.

(** [main], up to the two handlers it hands to the server:
    [h := inject.Must(di.Inject(home)).(http.HandlerFunc)] and
    [mid := inject.Must(di.Inject(logMiddleware)).(middleware)]. *)
Definition main_handlers (db tmpl lg : data) : M (iface * iface) :=
  di ← deps db tmpl lg;
  r1 ← Injector_Inject text has_methods di home;
  m1 ← Must r1.1 r1.2;
  h ← assert_type HandlerFunc m1;
  r2 ← Injector_Inject text has_methods di logMiddleware;
  m2 ← Must r2.1 r2.2;
  mid ← assert_type middleware m2;
  mret (h, mid).

Lemma NoDup_deps_types db tmpl lg :
  NoDup (TypeOf <$> [Box (PtrTo DB) db; Box (PtrTo Template) tmpl; Box (PtrTo Logger) lg]).
Proof.
  simpl. apply NoDup_cons. split.
  - intros Hin. apply elem_of_cons in Hin as [Hin|Hin]; [discriminate|].
    apply list_elem_of_singleton in Hin. discriminate.
  - apply NoDup_cons. split; [|apply NoDup_singleton].
    intros Hin. apply list_elem_of_singleton in Hin. discriminate.
Qed.

Lemma deps_run db tmpl lg s :
  deps db tmpl lg s =
    (Ok (Some needle_ptr),
     mkState (registry_of [Box (PtrTo DB) db; Box (PtrTo Template) tmpl;
                           Box (PtrTo Logger) lg]) (calls s)).
Proof.
  unfold deps. erewrite bind_Ok; [|apply New_distinct, NoDup_deps_types]. done.
Qed.

(** X13.  [deps] always returns an Injector, whatever pointers the
    constructors returned, nil ones too (the error of [sql.Open] is
    dropped): the three pointer types differ, and each pointer is stored
    under its type. *)
Theorem deps_returns_Injector db tmpl lg s :
  ∃ s', deps db tmpl lg s = (Ok (Some needle_ptr), s') ∧
    size (registry s') = 3 ∧
    registry s' !! Some (PtrTo DB) = Some (valueOf (PtrTo DB) (Box (PtrTo DB) db)) ∧
    registry s' !! Some (PtrTo Template)
      = Some (valueOf (PtrTo Template) (Box (PtrTo Template) tmpl)) ∧
    registry s' !! Some (PtrTo Logger)
      = Some (valueOf (PtrTo Logger) (Box (PtrTo Logger) lg)).
Proof.
  eexists. split; [apply deps_run|]. simpl.
  pose proof (NoDup_deps_types db tmpl lg) as Hnd.
  split; [|split; [|split]].
  - unfold registry_of. rewrite map_size_list_to_map; [done|].
    by rewrite <- list_fmap_compose.
  - apply (registry_of_lookup _ (Box (PtrTo DB) db) Hnd). left.
  - apply (registry_of_lookup _ (Box (PtrTo Template) tmpl) Hnd). right. left.
  - apply (registry_of_lookup _ (Box (PtrTo Logger) lg) Hnd). do 2 right. left.
Qed.

(** X14.  The Injector that [New] returns together with an error is nil:
    a caller that drops the error and goes on to [Inject] panics, and
    nothing is called. *)
Theorem Inject_after_failed_New vs s0 di e s fn :
  New vs s0 = (Ok (di, Some e), s) →
  ∃ msg, Injector_Inject text has_methods di fn s = (Panic (reflect_panic msg), s).
Proof.
  intros HNew. destruct di as [inj|].
  - by apply New_success_inv in HNew as (_ & ? & _).
  - by eexists.
Qed.

(** X15.  When [parse(di.Inject(fn))] returns, what it returns has the
    dynamic type [http.HandlerFunc] and is the value [Inject] returned
    with a nil error; the function passed validation, every parameter
    type was in the map and [Call] was used exactly once. *)
Theorem parse_Inject_returns fn s h s' :
  (r ← Inject text has_methods fn; parse r.1 r.2) s = (Ok h, s') →
  TypeOf h = Some HandlerFunc ∧
  validate fn = None ∧
  Inject text has_methods fn s = (Ok (h, None), s') ∧
  ∃ ft ins outs variadic args,
    TypeOf fn = Some ft ∧ funcType ft = Some (ins, outs, variadic) ∧
    resolve (registry s) ins = Some args ∧
    s' = logged s (ValueOf fn, args).
Proof.
  unfold mbind, M_bind, parse, assert_type, mret, M_ret, panic. intros H.
  destruct (Inject text has_methods fn s) as [[[r [e|]]|f] s1] eqn:HI;
    simplify_eq/=.
  destruct r as [|t d]; [done|]. case_decide; simplify_eq/=.
  split; [done|].
  pose proof (Inject_cases text has_methods (fn) s) as Hd.
  destruct (validate fn) as [f|] eqn:Hval; [by rewrite Hd in HI|].
  split; [done|]. split; [done|].
  destruct Hd as (ft & ins & outs & v & Hfn & Et & Hd).
  exists ft, ins, outs, v.
  destruct (first_missing (registry s) ins) as [T|]; [by rewrite Hd in HI|].
  destruct Hd as (args & Hargs & Hs). exists args.
  by rewrite HI in Hs.
Qed.

(** X16.  [main] gets its two handlers: whatever pointers [deps] got, when
    [home] and [logMiddleware] return values of their result types,
    neither [Must] nor a type assertion panics, [home] is called with the
    template and the database in the order of its parameters and
    [logMiddleware] with the logger, each once. *)
Theorem main_gets_handlers db tmpl lg hd md s :
  text home_code [Box (PtrTo Template) tmpl; Box (PtrTo DB) db]
    = Some [Box HandlerFunc hd] →
  text logMiddleware_code [Box (PtrTo Logger) lg] = Some [Box middleware md] →
  ∃ s', main_handlers db tmpl lg s = (Ok (Box HandlerFunc hd, Box middleware md), s') ∧
    calls s' = calls s ++
      [(ValueOf home, [ValueOf (Box (PtrTo Template) tmpl); ValueOf (Box (PtrTo DB) db)]);
       (ValueOf logMiddleware, [ValueOf (Box (PtrTo Logger) lg)])].
Proof.
  intros Hhome Hlog. unfold main_handlers.
  pose proof (NoDup_deps_types db tmpl lg) as Hnd.
  set (vs := [Box (PtrTo DB) db; Box (PtrTo Template) tmpl; Box (PtrTo Logger) lg]) in *.
  erewrite bind_Ok by apply deps_run. fold vs. unfold Injector_Inject.
  erewrite bind_Ok; cycle 1.
  { eapply (Inject_returns text has_methods home _ home_code
              [PtrTo Template; PtrTo DB] [HandlerFunc] _
              [ValueOf (Box (PtrTo Template) tmpl); ValueOf (Box (PtrTo DB) db)]);
      try reflexivity.
    - repeat constructor; by eexists.
    - apply resolve_Forall2. simpl.
      repeat constructor.
      + apply (registry_of_lookup vs (Box (PtrTo Template) tmpl) Hnd). right. left.
      + apply (registry_of_lookup vs (Box (PtrTo DB) db) Hnd). left.
    - exact Hhome.
    - reflexivity. }
  simpl. rewrite !ret_bind. simpl. rewrite decide_True by done. rewrite ret_bind.
  erewrite bind_Ok; cycle 1.
  { eapply (Inject_returns text has_methods logMiddleware _ logMiddleware_code
              [PtrTo Logger] [middleware] _ [ValueOf (Box (PtrTo Logger) lg)]);
      try reflexivity.
    - repeat constructor; by eexists.
    - apply resolve_Forall2. simpl. repeat constructor.
      apply (registry_of_lookup vs (Box (PtrTo Logger) lg) Hnd). do 2 right. left.
    - exact Hlog.
    - reflexivity. }
  simpl. rewrite !ret_bind. simpl. rewrite decide_True by done. rewrite ret_bind.
  eexists. split; [reflexivity|]. simpl. by rewrite <- app_assoc.
Qed.

End callers.

(** ** The further properties on inputs *)

(** A concrete example server: the types of the standard library as empty
    structs and interfaces, and code for [home] and [logMiddleware] that
    returns closures. *)
Module Server.

Definition RW : rtype := Named "http" "ResponseWriter" (InterfaceOf []).
Definition Req : rtype := Named "http" "Request" (StructOf []).
Definition Hdl : rtype :=
  Named "http" "Handler" (InterfaceOf [("ServeHTTP", FuncOf [RW; PtrTo Req] [] false)]).
Definition S0 : rtype := StructOf [].

Definition text (entry : nat) (args : list iface) : option (list iface) :=
  match entry, args with
  | 0, [Box _ (DPtr _); Box _ (DPtr _)] =>
      Some [Box (HandlerFunc RW Req) (DFunc (Some 10))]
  | 1, [Box _ (DPtr _)] => Some [Box (middleware Hdl) (DFunc (Some 11))]
  | _, _ => None
  end.

Definition no_methods (V T : rtype) : bool := false.

End Server.

Section further_examples.
Import Example.

Lemma New_registry_contents_witness :
  New [a0; b1] start = (Ok (Some needle_ptr, None), (New [a0; b1] start).2) ∧
  size (registry (New [a0; b1] start).2) = length [a0; b1] ∧
  (registry (New [a0; b1] start).2 !! Some (Basic Tint) = None).
Proof.
  split; [reflexivity|].
  destruct (New_registry_contents [a0; b1] start None (New [a0; b1] start).2 eq_refl)
    as [Hsize Hkeys].
  split; [exact Hsize|]. reflexivity.
Defined.

Lemma New_reports_first_conflict_witness :
  NoDup (TypeOf <$> [a0; b1]) ∧ a0 ∈ [a0; b1] ∧
  New ([a0; b1] ++ Box A (DInt 1) :: [foo]) start =
    (Ok (None, Some (error_of (DuplicateTypeError a0 (Box A (DInt 1))) Nil)),
     mkState (registry_of [a0; b1]) []).
Proof.
  split; [exact NoDup_types_a0_b1|]. split; [left|].
  apply (New_reports_first_conflict [a0; b1] a0 (Box A (DInt 1)) [foo] A start
           NoDup_types_a0_b1); [left|reflexivity|reflexivity].
Defined.


Lemma New_defined_types_beside_underlying_witness :
  ("main", "A") ≠ ("main", "B") ∧
  ∃ s, New [a0; b1; Box (Basic Tint) (DInt 2)] start = (Ok (Some needle_ptr, None), s) ∧
       registry s !! Some (Basic Tint)
         = Some (valueOf (Basic Tint) (Box (Basic Tint) (DInt 2))).
Proof.
  split; [discriminate|].
  destruct (New_defined_types_beside_underlying "main" "A" "main" "B" (Basic Tint)
              (DInt 0) (DInt 1) (DInt 2) start) as (s & HNew & _ & _ & Hint).
  { discriminate. }
  exists s. split; [exact HNew|exact Hint].
Defined.


Lemma join_returns_one args rs : text 0 args = Some rs → length rs = 1.
Proof.
  unfold text. intros H. repeat case_match; by simplify_eq.
Qed.

Lemma Inject_on_plain_function_witness :
  (∀ args rs, text 0 args = Some rs → length rs = length [Basic Tstring]) ∧
  ∃ args, resolve (registry (New [a0; b1] start).2) [A; B] = Some args ∧
    Inject text has_methods join (New [a0; b1] start).2 =
      (match text 0 (contents args) with
       | Some rs => Ok (normalize rs)
       | None => Panic callee_panic
       end, logged (New [a0; b1] start).2 (ValueOf join, args)).
Proof.
  split; [exact join_returns_one|].
  exact (Inject_on_plain_function text has_methods [a0; b1] start needle_ptr
           (New [a0; b1] start).2 join (FuncOf [A; B] [Basic Tstring] false)
           [A; B] [Basic Tstring] 0 eq_refl eq_refl eq_refl eq_refl eq_refl
           join_returns_one).
Defined.

(** [func(e error) string] with a registry that holds an [A]. *)
Lemma Inject_interface_parameter_witness :
  rtype_Kind errorType = Interface ∧
  ∃ U, U ∈ [errorType] ∧
    Inject text has_methods
      (Box (FuncOf [errorType] [Basic Tstring] false) (DFunc (Some 1)))
      (New [a0] start).2 =
      (Ok (Nil, Some (error_of (MissingDependencyError U)
                        (Box (FuncOf [errorType] [Basic Tstring] false) (DFunc (Some 1))))),
       (New [a0] start).2).
Proof.
  split; [reflexivity|].
  apply (Inject_interface_parameter text has_methods [a0] start needle_ptr
           (New [a0] start).2 _ (FuncOf [errorType] [Basic Tstring] false)
           [errorType] [Basic Tstring] false errorType); try reflexivity.
  - constructor; [|constructor]. intros U [= <-]. discriminate.
  - left.
Defined.

Lemma Must_Inject_returns_witness :
  Must_Inject text has_methods join (New [a0; b1] start).2 =
    (Ok (Box (Basic Tstring) (DString "0 1")),
     (Must_Inject text has_methods join (New [a0; b1] start).2).2) ∧
  validate join = None ∧
  Inject text has_methods join (New [a0; b1] start).2 =
    (Ok (Box (Basic Tstring) (DString "0 1"), None),
     (Must_Inject text has_methods join (New [a0; b1] start).2).2).
Proof.
  split; [reflexivity|].
  destruct (Must_Inject_returns text has_methods join (New [a0; b1] start).2
              (Box (Basic Tstring) (DString "0 1"))
              (Must_Inject text has_methods join (New [a0; b1] start).2).2 eq_refl)
    as (Hval & HI & _).
  split; [exact Hval|exact HI].
Defined.

Lemma Must_Inject_panics_witness :
  validate foo = Some (NotCallableError String) ∧
  Must_Inject text has_methods foo start =
    (Panic (Must_panic (error_of (NotCallableError String) foo)), start).
Proof.
  split; [reflexivity|].
  destruct (Must_Inject_panics text has_methods foo start) as [Hinvalid _].
  apply (Hinvalid (NotCallableError String)). reflexivity.
Defined.

Lemma Inject_nil_function_witness :
  func_code nil_func = None ∧
  Inject text has_methods nil_func start =
    (Panic (reflect_panic "reflect.Value.Call: call of nil function"),
     logged start (ValueOf nil_func, [])).
Proof.
  split; [reflexivity|].
  apply (Inject_nil_function text has_methods nil_func
           (FuncOf [] [Basic Tstring] false) [] [Basic Tstring] false []);
    reflexivity.
Defined.

Lemma count_returns_one args rs : text 2 args = Some rs → length rs = 1.
Proof.
  unfold text. intros H. repeat case_match; by simplify_eq.
Qed.

(** [count], with a registered [[]int]. *)
Lemma Inject_variadic_single_witness :
  AssignableTo has_methods ints (Basic Tint) = false ∧
  Inject text has_methods count (mkState (registry_of [seven]) []) =
    (Panic (reflect_panic "reflect: cannot use []int as type int in Call"),
     logged (mkState (registry_of [seven]) []) (ValueOf count, [ValueOf seven])).
Proof.
  split; [reflexivity|].
  exact (Inject_variadic_single text has_methods count
           (FuncOf [ints] [Basic Tstring] true) ints (Basic Tint) [Basic Tstring] 2
           seven (mkState (registry_of [seven]) [])
           eq_refl eq_refl eq_refl eq_refl eq_refl count_returns_one eq_refl).
Defined.

Lemma Inject_after_failed_New_witness :
  New [a0; Box A (DInt 1)] start =
    (Ok (None, Some (error_of (DuplicateTypeError a0 (Box A (DInt 1))) Nil)),
     (New [a0; Box A (DInt 1)] start).2) ∧
  ∃ msg, Injector_Inject text has_methods None join (New [a0; Box A (DInt 1)] start).2
         = (Panic (reflect_panic msg), (New [a0; Box A (DInt 1)] start).2).
Proof.
  split; [reflexivity|].
  apply (Inject_after_failed_New text has_methods [a0; Box A (DInt 1)] start None
           (error_of (DuplicateTypeError a0 (Box A (DInt 1))) Nil)
           (New [a0; Box A (DInt 1)] start).2 join eq_refl).
Defined.

End further_examples.

Section server_examples.
Import Server.

(** The server with nil pointers for the database and the logger. *)
Lemma main_gets_handlers_witness :
  ∃ s', main_handlers text no_methods S0 S0 S0 RW Req Hdl 0 1
          (DPtr None) (DPtr (Some 1)) (DPtr None) Example.start
        = (Ok (Box (HandlerFunc RW Req) (DFunc (Some 10)),
               Box (middleware Hdl) (DFunc (Some 11))), s').
Proof.
  destruct (main_gets_handlers text no_methods S0 S0 S0 RW Req Hdl 0 1
              (DPtr None) (DPtr (Some 1)) (DPtr None)
              (DFunc (Some 10)) (DFunc (Some 11)) Example.start eq_refl eq_refl)
    as (s' & Hmain & _).
  exists s'. exact Hmain.
Defined.

Lemma parse_Inject_returns_witness :
  (r ← Inject text no_methods (home S0 S0 RW Req 0); parse RW Req r.1 r.2)
    (mkState (registry_of [Box (PtrTo (DB S0)) (DPtr None);
                           Box (PtrTo (Template S0)) (DPtr (Some 1))]) []) =
    (Ok (Box (HandlerFunc RW Req) (DFunc (Some 10))),
     logged (mkState (registry_of [Box (PtrTo (DB S0)) (DPtr None);
                                   Box (PtrTo (Template S0)) (DPtr (Some 1))]) [])
            (ValueOf (home S0 S0 RW Req 0),
             [ValueOf (Box (PtrTo (Template S0)) (DPtr (Some 1)));
              ValueOf (Box (PtrTo (DB S0)) (DPtr None))])) ∧
  validate (home S0 S0 RW Req 0) = None.
Proof.
  assert ((r ← Inject text no_methods (home S0 S0 RW Req 0); parse RW Req r.1 r.2)
    (mkState (registry_of [Box (PtrTo (DB S0)) (DPtr None);
                           Box (PtrTo (Template S0)) (DPtr (Some 1))]) []) =
    (Ok (Box (HandlerFunc RW Req) (DFunc (Some 10))),
     logged (mkState (registry_of [Box (PtrTo (DB S0)) (DPtr None);
                                   Box (PtrTo (Template S0)) (DPtr (Some 1))]) [])
            (ValueOf (home S0 S0 RW Req 0),
             [ValueOf (Box (PtrTo (Template S0)) (DPtr (Some 1)));
              ValueOf (Box (PtrTo (DB S0)) (DPtr None))]))) as Hrun.
  { vm_compute. reflexivity. }
  split; [exact Hrun|].
  destruct (parse_Inject_returns text no_methods RW Req (home S0 S0 RW Req 0)
              _ _ _ Hrun) as (_ & Hval & _).
  exact Hval.
Defined.

End server_examples.
